(** * DependencyGraph: the source dependency graph builder

  A shallow embedding of [src/DependencyGraph.js].  The class keeps a
  JavaScript [Map] from files to [Set] objects of files and fills it by a
  depth-first walk over the imports of the entry points.

  - A JS [Map] iterates its keys in insertion order and [set] on a key
    that is already present keeps the key's position: it is modelled as
    an association list with exactly that behaviour.
  - A JS [Set] is an object: [addDependenciesFrom] stores the set in the
    map first and calls [add] on it afterwards, through the local variable
    [dependencies].  The model keeps a store of [Set] objects and the map
    holds references into it, so the aliasing is the source's.
  - [getImports] (module [./imports]) and [resolver.resolveImport] are the
    two collaborators.  Both are awaited and both may reject; every call
    is logged together with the graph as it stands at the call, which is
    what any other code can observe while the build is suspended.
  - [addDependenciesFrom] is recursive without a bound of its own: the
    model takes the recursion depth allowed as [fuel] and reports
    [Starved] when it is used up. *)

From stdpp Require Import base option list strings.
From Stdlib Require Import Lia.

Set Default Proof Using "Type*".

(** ** JavaScript containers *)

Section Containers.
Context {K V : Type} `{EqDecision K}.

(** [Map.prototype.has] *)
Definition Map_has (m : list (K * V)) (k : K) : bool :=
  bool_decide (k ∈ m.*1).

(** [Map.prototype.get]; [None] is JavaScript's [undefined]. *)
Fixpoint Map_get (m : list (K * V)) (k : K) : option V :=
  match m with
  | [] => None
  | (k', v) :: m' => if decide (k' = k) then Some v else Map_get m' k
  end.

(** [Map.prototype.set]: a present key keeps its place, a new key goes
    last. *)
Fixpoint Map_set (m : list (K * V)) (k : K) (v : V) : list (K * V) :=
  match m with
  | [] => [(k, v)]
  | (k', v') :: m' =>
      if decide (k' = k) then (k, v) :: m' else (k', v') :: Map_set m' k v
  end.

(** [Map.prototype.keys], as the sequence the iterator yields. *)
Definition Map_keys (m : list (K * V)) : list K := m.*1.

(** [Set.prototype.add]: insertion order, no duplicates. *)
Definition Set_add (s : list K) (x : K) : list K :=
  if decide (x ∈ s) then s else s ++ [x].
End Containers.

(** ** The class *)

Section DependencyGraph.
Context {File Spec Err : Type} `{EqDecision File}.

(** An awaited promise: fulfilled with a value or rejected with an
    error. *)
Definition Promise (A : Type) : Type := Err + A.

(** [getImports] of the module [./imports], whose source is not at hand:
    a parameter of the model.  It is awaited for the ordered specifiers
    of a file and may reject. *)
Context (getImports : File → Promise (list Spec)).

(** The [resolver] argument: an object with a [resolveImport] method. *)
Record Resolver := { resolveImport : File → Spec → Promise File }.

(** A reference to a [Set] object of the store. *)
Definition SetRef : Type := nat.

(** The fields of [DependencyGraph]. *)
Record DependencyGraph := {
  dependenciesPerFile : list (File * SetRef);
  entryPoints : list File
}.

(** The graph with every [Set] read out of the store. *)
Definition Snapshot : Type := list (File * list File).

(** A call to a collaborator. *)
Inductive Call :=
| CallGetImports (file : File)
| CallResolveImport (file : File) (imp : Spec).

(** State of a build: the graph under construction, the store of [Set]
    objects, and the calls made to the collaborators so far, each with
    the graph as it was at the call. *)
Record World := {
  graph : DependencyGraph;
  sets : list (list File);
  calls : list (Call * Snapshot)
}.

(** The graph of a world as other code sees it. *)
Definition snapshot (w : World) : Snapshot :=
  (λ fr : File * SetRef, (fr.1, default [] (sets w !! fr.2)))
    <$> dependenciesPerFile (graph w).

(** How an async function ends; [Starved] is the model running out of
    fuel. *)
Inductive Outcome (A : Type) :=
| Fulfilled (a : A)
| Rejected (e : Err)
| Starved.
Global Arguments Fulfilled {A} a.
Global Arguments Rejected {A} e.
Global Arguments Starved {A}.

(** An async function: it changes the world and ends in an outcome. *)
Definition M (A : Type) : Type := World → Outcome A * World.

Definition ret {A} (a : A) : M A := λ w, (Fulfilled a, w).

Definition bind {A B} (c : M A) (k : A → M B) : M B := λ w,
  match c w with
  | (Fulfilled a, w') => k a w'
  | (Rejected e, w') => (Rejected e, w')
  | (Starved, w') => (Starved, w')
  end.

Definition starve {A} : M A := λ w, (Starved, w).

Local Notation "'let*' x ':=' c1 'in' c2" := (bind c1 (λ x, c2))
  (at level 10, x name, c1 at level 100, c2 at level 200).
Local Notation "'let*' '_' ':=' c1 'in' c2" := (bind c1 (λ _, c2))
  (at level 10, c1 at level 100, c2 at level 200).

(** [for (const x of xs) body(x)] *)
Fixpoint for_of {A} (xs : list A) (body : A → M unit) : M unit :=
  match xs with
  | [] => ret tt
  | x :: xs' => let* _ := body x in for_of xs' body
  end.

(** [await p] for a collaborator's promise, logging the call. *)
Definition await {A} (c : Call) (p : Promise A) : M A := λ w,
  let w' := {| graph := graph w; sets := sets w;
               calls := calls w ++ [(c, snapshot w)] |} in
  match p with
  | inl e => (Rejected e, w')
  | inr a => (Fulfilled a, w')
  end.

(** [new Set()] *)
Definition new_Set : M SetRef := λ w,
  (Fulfilled (length (sets w)),
   {| graph := graph w; sets := sets w ++ [[]]; calls := calls w |}).

(** [set.add(x)] on the object behind a reference. *)
Definition Set_add_at (r : SetRef) (x : File) : M unit := λ w,
  (Fulfilled tt,
   {| graph := graph w; sets := alter (λ s, Set_add s x) r (sets w);
      calls := calls w |}).

(** [this.dependenciesPerFile.set(file, dependencies)] *)
Definition dependenciesPerFile_set (file : File) (r : SetRef) : M unit :=
  λ w,
  (Fulfilled tt,
   {| graph := {| dependenciesPerFile :=
                    Map_set (dependenciesPerFile (graph w)) file r;
                  entryPoints := entryPoints (graph w) |};
      sets := sets w; calls := calls w |}).

(** [this.dependenciesPerFile.has(file)] *)
Definition dependenciesPerFile_has (file : File) : M bool := λ w,
  (Fulfilled (Map_has (dependenciesPerFile (graph w)) file), w).

(** [new DependencyGraph(entryPoints)] *)
Definition new_DependencyGraph (entryPoints : list File) : M unit := λ w,
  (Fulfilled tt,
   {| graph := {| dependenciesPerFile := []; entryPoints := entryPoints |};
      sets := sets w; calls := calls w |}).

(** [graph], the object the build works on. *)
Definition this : M DependencyGraph := λ w, (Fulfilled (graph w), w).

(** One round of the loop over [imports] in [addDependenciesFrom];
    [visit] is the recursive call. *)
Definition addDependency (visit : File → M unit) (resolver : Resolver)
    (file : File) (dependencies : SetRef) (imp : Spec) : M unit :=
  let* dependency := await (CallResolveImport file imp)
                           (resolveImport resolver file imp) in
  let* _ := Set_add_at dependencies dependency in
  let* has := dependenciesPerFile_has dependency in
  if has then ret tt else visit dependency.

(** The body of [addDependenciesFrom]. *)
Definition addDependenciesFrom_body (visit : File → M unit)
    (resolver : Resolver) (file : File) : M unit :=
  let* dependencies := new_Set in
  let* _ := dependenciesPerFile_set file dependencies in
  let* imports := await (CallGetImports file) (getImports file) in
  for_of imports (addDependency visit resolver file dependencies).

Fixpoint addDependenciesFrom (fuel : nat) (resolver : Resolver)
    (file : File) : M unit :=
  match fuel with
  | 0 => starve
  | S fuel' =>
      addDependenciesFrom_body (addDependenciesFrom fuel' resolver)
        resolver file
  end.

Definition createFromMultipleEntryPoints (fuel : nat) (resolver : Resolver)
    (entryPoints : list File) : M DependencyGraph :=
  let* _ := new_DependencyGraph entryPoints in
  let* _ := for_of entryPoints (λ entryPoint,
    let* has := dependenciesPerFile_has entryPoint in
    if has then ret tt else addDependenciesFrom fuel resolver entryPoint) in
  this.

Definition createFromEntryPoint (fuel : nat) (resolver : Resolver)
    (entryPoint : File) : M DependencyGraph :=
  createFromMultipleEntryPoints fuel resolver [entryPoint].

(** [getResolvedFiles()] on the graph of a world. *)
Definition getResolvedFiles (w : World) : list File :=
  Map_keys (dependenciesPerFile (graph w)).

(** [dependenciesPerFile.get(file)], the set read out of the store. *)
Definition dependenciesOf (w : World) (file : File) : option (list File) :=
  r ← Map_get (dependenciesPerFile (graph w)) file; sets w !! r.

(** The world a build starts in. *)
Definition boot : World :=
  {| graph := {| dependenciesPerFile := []; entryPoints := [] |};
     sets := []; calls := [] |}.



(** ** Reading the model *)

Definition source (c : Call) : File :=
  match c with
  | CallGetImports file => file
  | CallResolveImport file _ => file
  end.

(** The files [getImports] was called on, in call order. *)
Definition extracted (l : list (Call * Snapshot)) : list File :=
  omap (λ cs : Call * Snapshot,
          match cs.1 with
          | CallGetImports file => Some file
          | CallResolveImport _ _ => None
          end) l.

(** The specifiers [resolveImport] was called on with source [file], in
    call order. *)
Definition resolved_from (file : File) (l : list (Call * Snapshot))
    : list Spec :=
  omap (λ cs : Call * Snapshot,
          match cs.1 with
          | CallResolveImport file' imp =>
              if decide (file' = file) then Some imp else None
          | CallGetImports _ => None
          end) l.

(** The error a call is rejected with, if it is. *)
Definition failure (resolver : Resolver) (c : Call) : option Err :=
  match c with
  | CallGetImports file =>
      match getImports file with inl e => Some e | inr _ => None end
  | CallResolveImport file imp =>
      match resolveImport resolver file imp with
      | inl e => Some e
      | inr _ => None
      end
  end.

(** [resolver] maps the specifiers [specs] of [file] to [ds], one by
    one. *)
Definition resolves (resolver : Resolver) (file : File)
    (specs : list Spec) (ds : list File) : Prop :=
  Forall2 (λ imp d, resolveImport resolver file imp = inr d) specs ds.

(** [file] imports [d] directly. *)
Definition imports (resolver : Resolver) (file d : File) : Prop :=
  ∃ specs imp, getImports file = inr specs ∧ imp ∈ specs ∧
               resolveImport resolver file imp = inr d.

(** [file] is reached from [e] by a chain of direct imports. *)
Inductive reachable (resolver : Resolver) (e : File) : File → Prop :=
| reachable_refl : reachable resolver e e
| reachable_step file d :
    reachable resolver e file → imports resolver file d →
    reachable resolver e d.

(** The visit of [file] is over: its set holds what its specifiers
    resolve to and each of them is a key. *)
Definition Complete (resolver : Resolver) (w : World) (file : File)
    : Prop :=
  ∃ specs ds,
    getImports file = inr specs ∧ resolves resolver file specs ds ∧
    dependenciesOf w file = Some (foldl Set_add [] ds) ∧
    Forall (λ d, d ∈ getResolvedFiles w) ds.

(** The references of the map point into the store and no two keys
    share a [Set]. *)
Record WF (w : World) : Prop := {
  wf_keys : NoDup (getResolvedFiles w);
  wf_refs : NoDup (dependenciesPerFile (graph w)).*2;
  wf_bound : Forall (λ fr : File * SetRef, fr.2 < length (sets w))
               (dependenciesPerFile (graph w))
}.

(** [w'] extends [w] by the entries [new] and the calls [newcalls]. *)
Record Ext (w w' : World) (new : list (File * SetRef))
    (newcalls : list (Call * Snapshot)) : Prop := {
  ext_entry : entryPoints (graph w') = entryPoints (graph w);
  ext_map : dependenciesPerFile (graph w')
            = dependenciesPerFile (graph w) ++ new;
  ext_sets : sets w `prefix_of` sets w';
  ext_calls : calls w' = calls w ++ newcalls;
  ext_source : Forall (λ cs : Call * Snapshot, source cs.1 ∈ new.*1)
                 newcalls;
  ext_extracted : extracted newcalls = new.*1
}.

(** The world once [addDependenciesFrom] has stored a new [Set] under
    [file], a file that was not a key, and has called [getImports]. *)
Definition enter (w : World) (file : File) : World :=
  let g := {| dependenciesPerFile :=
                dependenciesPerFile (graph w) ++ [(file, length (sets w))];
              entryPoints := entryPoints (graph w) |} in
  {| graph := g; sets := sets w ++ [[]];
     calls := calls w ++
       [(CallGetImports file,
         snapshot {| graph := g; sets := sets w ++ [[]];
                     calls := calls w |})] |}.

(** The world once [createFromMultipleEntryPoints] has made its graph. *)
Definition fresh (w : World) (entryPoints : list File) : World :=
  {| graph := {| dependenciesPerFile := []; entryPoints := entryPoints |};
     sets := sets w; calls := calls w |}.

(** The loop of [createFromMultipleEntryPoints] over the entry points, on
    its own. *)
Definition visitEntryPoints (fuel : nat) (resolver : Resolver)
    (entryPoints : list File) : M unit :=
  for_of entryPoints (λ entryPoint,
    let* has := dependenciesPerFile_has entryPoint in
    if has then ret tt else addDependenciesFrom fuel resolver entryPoint).

(** What a visit of a file that is not yet a key does to a well-formed
    world. *)
Definition Sound (resolver : Resolver) (visit : File → M unit) : Prop :=
  ∀ f w o w', WF w → f ∉ getResolvedFiles w → visit f w = (o, w') →
    ∃ new newcalls, WF w' ∧ Ext w w' new newcalls ∧
      (o = Fulfilled tt →
       f ∈ new.*1 ∧ Forall (Complete resolver w') new.*1).

(** A call that was not rejected. *)
Definition ok (resolver : Resolver) (cs : Call * Snapshot) : Prop :=
  failure resolver cs.1 = None.

(** Every call of the log saw as keys the files extracted up to it, itself
    included; [getImports] saw its file with an empty set, and
    [resolveImport] was called for a key and one of its specifiers. *)
Definition Sensible (l : list (Call * Snapshot)) : Prop :=
  ∀ l1 c s l2, l = l1 ++ (c, s) :: l2 →
    Map_keys s = extracted (l1 ++ [(c, s)]) ∧
    match c with
    | CallGetImports file => Map_get s file = Some []
    | CallResolveImport file imp =>
        file ∈ Map_keys s ∧
        ∃ specs, getImports file = inr specs ∧ imp ∈ specs
    end.

Definition LogOK (w : World) : Prop :=
  extracted (calls w) = getResolvedFiles w ∧ Sensible (calls w).

(** How the calls of a run end: a rejected run stops at its first rejected
    call. *)
Definition Ended (resolver : Resolver) {A} (o : Outcome A)
    (newcalls : list (Call * Snapshot)) : Prop :=
  match o with
  | Rejected e =>
      ∃ l c, newcalls = l ++ [c] ∧ Forall (ok resolver) l ∧
             failure resolver c.1 = Some e
  | _ => Forall (ok resolver) newcalls
  end.

(** Each new key had each of its specifiers resolved once, in order. *)
Definition Counted (new : list (File * SetRef))
    (newcalls : list (Call * Snapshot)) : Prop :=
  ∀ k specs, k ∈ new.*1 → getImports k = inr specs →
    resolved_from k newcalls = specs.

(** What a visit does to the log. *)
Definition Logged (resolver : Resolver) (visit : File → M unit) : Prop :=
  ∀ f w o w' new newcalls,
    WF w → f ∉ getResolvedFiles w → LogOK w →
    visit f w = (o, w') → Ext w w' new newcalls →
    LogOK w' ∧ Ended resolver o newcalls ∧
    (o = Fulfilled tt → Counted new newcalls).

(** [visit'] does whatever [visit] does when [visit] has fuel enough. *)
Definition Refines (visit visit' : File → M unit) : Prop :=
  ∀ f w o w', visit f w = (o, w') → o ≠ Starved → visit' f w = (o, w').

(** [universe] holds every file the files of [universe] import. *)
Definition Closed (resolver : Resolver) (universe : list File) : Prop :=
  ∀ f specs imp d,
    f ∈ universe → getImports f = inr specs → imp ∈ specs →
    resolveImport resolver f imp = inr d → d ∈ universe.

(** No call on a file of [universe] is rejected. *)
Definition Healthy (resolver : Resolver) (universe : list File) : Prop :=
  ∀ f, f ∈ universe →
    ∃ specs, getImports f = inr specs ∧
      ∀ imp, imp ∈ specs → ∃ d, resolveImport resolver f imp = inr d.

(** The files of [universe] that are not keys yet. *)
Definition unvisited (universe : list File) (w : World) : nat :=
  length (filter (λ u, u ∉ getResolvedFiles w) universe).

(** [file] lies on a cycle of imports, of length one or more. *)
Definition on_cycle (resolver : Resolver) (file : File) : Prop :=
  ∃ d, imports resolver file d ∧ reachable resolver d file.

(** The number of times [getImports] was called on [file]. *)
Definition getImports_calls (file : File) (l : list (Call * Snapshot))
    : nat :=
  length (filter (λ f, f = file) (extracted l)).

(** The number of times [resolveImport] was called with source [file]. *)
Definition resolveImport_calls (file : File) (l : list (Call * Snapshot))
    : nat :=
  length (resolved_from file l).

(** The number of times [resolveImport] answered [file]. *)
Definition resolveImport_answers (resolver : Resolver) (file : File)
    (l : list (Call * Snapshot)) : nat :=
  length (omap (λ cs : Call * Snapshot,
                  match cs.1 with
                  | CallResolveImport f imp =>
                      match resolveImport resolver f imp with
                      | inr d => if decide (d = file) then Some (f, imp)
                                 else None
                      | inl _ => None
                      end
                  | CallGetImports _ => None
                  end) l).

(** [w] with other [entryPoints] in its graph. *)
Definition relabel (entryPoints : list File) (w : World) : World :=
  {| graph := {| dependenciesPerFile := dependenciesPerFile (graph w);
                 entryPoints := entryPoints |};
     sets := sets w; calls := calls w |}.

(** No set holds a file that its key does not import. *)
Definition Honest (resolver : Resolver) (w : World) : Prop :=
  ∀ k ds, dependenciesOf w k = Some ds →
    ∀ d, d ∈ ds → imports resolver k d.

(** The world after [resolveImport] was called for [imp] of [file] and, if
    it answered [d], [d] was added to the set behind [r]. *)
Definition resolved (w : World) (file : File) (imp : Spec)
    (answer : option (SetRef * File)) : World :=
  {| graph := graph w;
     sets := match answer with
             | Some (r, d) => alter (λ s, Set_add s d) r (sets w)
             | None => sets w
             end;
     calls := calls w ++ [(CallResolveImport file imp, snapshot w)] |}.

(** Whatever set [s] shows for a key, [s'] shows the key with a set that
    starts with it. *)
Definition snap_le (s s' : Snapshot) : Prop :=
  ∀ k ds, Map_get s k = Some ds →
    ∃ ds', Map_get s' k = Some ds' ∧ ds `prefix_of` ds'.

(** What a call saw, every later call saw grown, and so does the world. *)
Definition Steady (w : World) : Prop :=
  ∀ l1 c s l2, calls w = l1 ++ (c, s) :: l2 →
    (∀ cs0, cs0 ∈ l1 → snap_le cs0.2 s) ∧ snap_le s (snapshot w).


(** The world once [addDependenciesFrom] has stored a new [Set] under
    [file], key or not, and has called [getImports]. *)
Definition begun (w : World) (file : File) : World :=
  let g := {| dependenciesPerFile :=
                Map_set (dependenciesPerFile (graph w)) file
                  (length (sets w));
              entryPoints := entryPoints (graph w) |} in
  {| graph := g; sets := sets w ++ [[]];
     calls := calls w ++
       [(CallGetImports file,
         snapshot {| graph := g; sets := sets w ++ [[]];
                     calls := calls w |})] |}.

(** [w] as it is in a process that made the [Set] objects [pre] and the
    calls [prec] before: the references of [w] move up by the number of
    those objects. *)
Definition rebase (pre : list (list File)) (prec : list (Call * Snapshot))
    (w : World) : World :=
  {| graph :=
       {| dependenciesPerFile :=
            (λ fr : File * SetRef, (fr.1, length pre + fr.2))
              <$> dependenciesPerFile (graph w);
          entryPoints := entryPoints (graph w) |};
     sets := pre ++ sets w; calls := prec ++ calls w |}.

(** The outcome of a build with the graph of another world in it. *)
Definition regraph {A} (o : Outcome A) (w : World)
    : Outcome DependencyGraph :=
  match o with
  | Fulfilled _ => Fulfilled (graph w)
  | Rejected e => Rejected e
  | Starved => Starved
  end.

End DependencyGraph.

(** ** Small projects to run the model on

    Files, specifiers and errors are strings.  A project is the list of
    its files with the specifiers each one imports; a specifier names its
    file through [links]. *)

Module Scenarios.

Definition project : Type := list (string * list string).

Definition getImports (p : project) (file : string)
    : string + list string :=
  match Map_get p file with
  | Some specs => inr specs
  | None => inl ("cannot read " +:+ file)
  end.

Definition links : list (string * string) :=
  [("./A", "A"); ("./B", "B"); ("./C", "C")].

Definition resolver : @Resolver string string string :=
  {| resolveImport := λ file imp,
       match Map_get links imp with
       | Some d => inr d
       | None => inl ("cannot resolve " +:+ imp +:+ " from " +:+ file)
       end |}.

(** [A] imports [B], [B] imports nothing. *)
Definition chain : project := [("A", ["./B"]); ("B", [])].

(** [A] imports [B] and [B] imports [A]. *)
Definition cycle : project := [("A", ["./B"]); ("B", ["./A"])].

(** [A] imports itself. *)
Definition loop : project := [("A", ["./A"])].

(** [A] and [B] both import [C]. *)
Definition diamond : project := [("A", ["./C"]); ("B", ["./C"]); ("C", [])].

(** [A] imports [B] and then a file that cannot be resolved. *)
Definition broken : project := [("A", ["./B"; "./missing"]); ("B", [])].

Definition build (p : project) (fuel : nat) (entryPoints : list string)
    : Outcome (Err:=string) DependencyGraph * @World string string :=
  createFromMultipleEntryPoints (getImports p) fuel resolver entryPoints boot.

End Scenarios.

(** * Proofs *)

Section ContainerFacts.
Context {K V : Type} `{EqDecision K}.
Implicit Types (m : list (K * V)) (k : K) (v : V).

Lemma Map_has_true m k : Map_has m k = true ↔ k ∈ Map_keys m.
Proof. unfold Map_has, Map_keys. by rewrite bool_decide_eq_true. Qed.

Lemma Map_has_false m k : Map_has m k = false ↔ k ∉ Map_keys m.
Proof. unfold Map_has, Map_keys. by rewrite bool_decide_eq_false. Qed.

Lemma Map_set_fresh m k v : k ∉ Map_keys m → Map_set m k v = m ++ [(k, v)].
Proof.
  unfold Map_keys. induction m as [|[k' v'] m IH]; simpl; [done|].
  intros Hk. apply not_elem_of_cons in Hk as [Hne Hk].
  destruct (decide (k' = k)); [congruence|]. by rewrite IH.
Qed.

Lemma Map_get_None m k : Map_get m k = None ↔ k ∉ Map_keys m.
Proof.
  unfold Map_keys. induction m as [|[k' v'] m IH]; simpl.
  - split; [intros _; apply not_elem_of_nil | done].
  - destruct (decide (k' = k)) as [->|Hne].
    + split; [done | intros []; left].
    + rewrite IH, not_elem_of_cons. split; [|by intros [_ ?]].
      intros ?. split; [congruence|done].
Qed.

Lemma Map_get_Some_elem m k v : Map_get m k = Some v → (k, v) ∈ m.
Proof.
  induction m as [|[k' v'] m IH]; simpl; [done|].
  destruct (decide (k' = k)) as [->|Hne].
  - intros [= ->]. left.
  - intros ?. right. auto.
Qed.

Lemma Map_get_elem m k v :
  NoDup (Map_keys m) → (k, v) ∈ m → Map_get m k = Some v.
Proof.
  unfold Map_keys. induction m as [|[k' v'] m IH]; simpl.
  - intros _ ?%elem_of_nil. done.
  - intros [Hk' Hnd]%NoDup_cons [[= -> ->]|Hin]%elem_of_cons.
    + by rewrite decide_True.
    + destruct (decide (k' = k)) as [->|Hne]; [|by auto].
      destruct Hk'. by apply (list_elem_of_fmap_2' fst _ (k, v)).
Qed.

Lemma Map_get_app_l m m' k v :
  Map_get m k = Some v → Map_get (m ++ m') k = Some v.
Proof.
  induction m as [|[k' v'] m IH]; simpl; [done|].
  destruct (decide (k' = k)); auto.
Qed.

Lemma Map_get_app_r m m' k :
  k ∉ Map_keys m → Map_get (m ++ m') k = Map_get m' k.
Proof.
  unfold Map_keys. induction m as [|[k' v'] m IH]; simpl; [done|].
  intros [Hne Hk]%not_elem_of_cons.
  destruct (decide (k' = k)); [congruence | auto].
Qed.

Lemma Set_add_elem (s : list K) x y : y ∈ Set_add s x ↔ y ∈ s ∨ y = x.
Proof.
  unfold Set_add. destruct (decide (x ∈ s)).
  - split; [by left|]. by intros [?| ->].
  - rewrite elem_of_app, list_elem_of_singleton. done.
Qed.

Lemma Set_add_NoDup (s : list K) x : NoDup s → NoDup (Set_add s x).
Proof.
  unfold Set_add. destruct (decide (x ∈ s)); [done|].
  intros Hnd. apply NoDup_app. split_and!; [done| |apply NoDup_singleton].
  intros y Hy ->%list_elem_of_singleton. done.
Qed.

Lemma foldl_Set_add_elem (ds s : list K) y :
  y ∈ foldl Set_add s ds ↔ y ∈ s ∨ y ∈ ds.
Proof.
  revert s. induction ds as [|d ds IH]; intros s; simpl.
  - rewrite elem_of_nil. tauto.
  - rewrite IH, Set_add_elem, elem_of_cons. tauto.
Qed.

Lemma foldl_Set_add_NoDup (ds s : list K) :
  NoDup s → NoDup (foldl Set_add s ds).
Proof.
  revert s. induction ds as [|d ds IH]; intros s Hs; simpl; [done|].
  by apply IH, Set_add_NoDup.
Qed.

Lemma foldl_Set_add_snoc (ds s : list K) d :
  foldl Set_add s (ds ++ [d]) = Set_add (foldl Set_add s ds) d.
Proof. by rewrite foldl_app. Qed.
End ContainerFacts.

Section Traversal.
Context {File Spec Err : Type} `{EqDecision File}.
Context (getImports : File → Err + list Spec).

Local Abbreviation World := (@World File Spec).
Local Abbreviation Visit := (File → @M File Spec Err unit).
Local Abbreviation Resolver := (@Resolver File Spec Err).
Local Abbreviation Log := (list (@Call File Spec * @Snapshot File)).
Implicit Types (w : World) (f d : File) (r : SetRef) (resolver : Resolver).

(** The loop rule: [I] holds of the items still to do, [Q] of the way the
    loop ends. *)
Lemma for_of_rule {A} (I : list A → World → Prop)
    (Q : Outcome (Err:=Err) unit → World → Prop) (body : A → M unit) :
  (∀ x xs w o w', I (x :: xs) w → body x w = (o, w') →
     match o with Fulfilled _ => I xs w' | _ => Q o w' end) →
  (∀ w, I [] w → Q (Fulfilled tt) w) →
  ∀ xs w o w', I xs w → for_of xs body w = (o, w') → Q o w'.
Proof.
  intros Hbody Hend xs. induction xs as [|x xs IH]; intros w o w' HI; simpl.
  - intros [= <- <-]. by apply Hend.
  - unfold bind. destruct (body x w) as [o1 w1] eqn:Hx.
    specialize (Hbody _ _ _ _ _ HI Hx).
    destruct o1 as [[]| |]; [by apply IH | by intros [= <- <-]..].
Qed.

Lemma Ext_refl w : Ext w w [] [].
Proof.
  split; simpl; rewrite ?app_nil_r; done.
Qed.

Lemma Ext_trans w1 w2 w3 n1 n2 c1 c2 :
  Ext w1 w2 n1 c1 → Ext w2 w3 n2 c2 → Ext w1 w3 (n1 ++ n2) (c1 ++ c2).
Proof.
  intros [] []. split.
  - congruence.
  - rewrite app_assoc. congruence.
  - by etrans.
  - rewrite app_assoc. congruence.
  - rewrite fmap_app. apply Forall_app. split.
    + eapply Forall_impl; [done|]. simpl. intros ? ?. apply elem_of_app. auto.
    + eapply Forall_impl; [done|]. simpl. intros ? ?. apply elem_of_app. auto.
  - unfold extracted in *. rewrite omap_app, fmap_app. congruence.
Qed.

Lemma Ext_keys w w' new newcalls :
  Ext w w' new newcalls →
  getResolvedFiles w' = getResolvedFiles w ++ new.*1.
Proof.
  intros []. unfold getResolvedFiles, Map_keys.
  by rewrite ext_map0, fmap_app.
Qed.

Lemma Ext_dependenciesOf w w' new newcalls f s :
  Ext w w' new newcalls →
  dependenciesOf w f = Some s → dependenciesOf w' f = Some s.
Proof.
  intros [] Hs. unfold dependenciesOf in *.
  destruct (Map_get (dependenciesPerFile (graph w)) f) as [r|] eqn:Hr;
    simpl in *; [|done].
  rewrite ext_map0, (Map_get_app_l _ _ _ _ Hr). simpl.
  by eapply prefix_lookup_Some.
Qed.

Lemma Ext_Complete resolver w w' new newcalls f :
  Ext w w' new newcalls →
  Complete getImports resolver w f → Complete getImports resolver w' f.
Proof.
  intros HE (specs & ds & Hg & Hr & Hd & Hk). exists specs, ds.
  split_and!; try done.
  - by eapply Ext_dependenciesOf.
  - eapply Forall_impl; [done|]. simpl. intros d Hd'.
    rewrite (Ext_keys _ _ _ _ HE). apply elem_of_app. auto.
Qed.

Lemma WF_calls w (l : Log) :
  WF w → WF {| graph := graph w; sets := sets w; calls := l |}.
Proof. intros []. by split. Qed.

Lemma WF_alter w (g : list File → list File) r :
  WF w →
  WF {| graph := graph w; sets := alter g r (sets w); calls := calls w |}.
Proof. intros []. split; simpl; try done. by rewrite length_alter. Qed.

Lemma Ext_resolve w0 w new newcalls f imp s :
  Ext w0 w new newcalls → f ∈ new.*1 →
  Ext w0 {| graph := graph w; sets := sets w;
            calls := calls w ++ [(CallResolveImport f imp, s)] |}
      new (newcalls ++ [(CallResolveImport f imp, s)]).
Proof.
  intros [] Hf. split; simpl; try done.
  - rewrite app_assoc. congruence.
  - apply Forall_app. split; [done|]. by apply Forall_singleton.
  - unfold extracted in *. rewrite omap_app. simpl. by rewrite app_nil_r.
Qed.

Lemma Ext_alter w0 w new newcalls (g : list File → list File) r :
  Ext w0 w new newcalls → length (sets w0) ≤ r →
  Ext w0 {| graph := graph w; sets := alter g r (sets w);
            calls := calls w |} new newcalls.
Proof.
  intros [] Hr. split; simpl; try done.
  destruct ext_sets0 as [k ->]. rewrite alter_app_r_alt by done.
  by apply prefix_app_r.
Qed.

Lemma dependenciesOf_alter w (g : list File → list File) r f :
  Map_get (dependenciesPerFile (graph w)) f ≠ Some r →
  dependenciesOf {| graph := graph w; sets := alter g r (sets w);
                    calls := calls w |} f = dependenciesOf w f.
Proof.
  intros Hr. unfold dependenciesOf. simpl.
  destruct (Map_get (dependenciesPerFile (graph w)) f) as [r'|]; simpl;
    [|done].
  apply list_lookup_alter_ne. congruence.
Qed.

Lemma Complete_alter resolver w (g : list File → list File) r f :
  Map_get (dependenciesPerFile (graph w)) f ≠ Some r →
  Complete getImports resolver w f →
  Complete getImports resolver
    {| graph := graph w; sets := alter g r (sets w); calls := calls w |} f.
Proof.
  intros Hr (specs & ds & Hg & Hrs & Hd & Hk). exists specs, ds.
  split_and!; try done. by rewrite dependenciesOf_alter.
Qed.

Lemma body_enter resolver (visit : Visit) f w :
  f ∉ getResolvedFiles w →
  addDependenciesFrom_body getImports visit resolver f w
  = match getImports f with
    | inl e => (Rejected e, enter w f)
    | inr specs =>
        for_of specs (addDependency visit resolver f (length (sets w)))
          (enter w f)
    end.
Proof.
  intros Hf.
  unfold addDependenciesFrom_body, bind, new_Set, dependenciesPerFile_set.
  simpl. rewrite Map_set_fresh by done. unfold await at 1. simpl.
  by destruct (getImports f).
Qed.

Lemma enter_WF w f : WF w → f ∉ getResolvedFiles w → WF (enter w f).
Proof.
  intros [Hk Hr Hb] Hf. unfold getResolvedFiles, Map_keys in *.
  split; unfold getResolvedFiles, Map_keys; simpl.
  - rewrite fmap_app. apply NoDup_app. split_and!; [done| |apply NoDup_singleton].
    intros x Hx ->%list_elem_of_singleton. done.
  - rewrite fmap_app. apply NoDup_app. split_and!; [done| |apply NoDup_singleton].
    intros x Hx ->%list_elem_of_singleton.
    apply list_elem_of_fmap in Hx as ([f' r'] & Heq & Hin).
    rewrite Forall_forall in Hb. specialize (Hb _ Hin). simpl in *. lia.
  - apply Forall_app. split.
    + eapply Forall_impl; [done|]. simpl. intros ? ?. rewrite length_app. lia.
    + apply Forall_singleton. simpl. rewrite length_app. simpl. lia.
Qed.

Lemma enter_Ext w f :
  Ext w (enter w f) [(f, length (sets w))]
    [(CallGetImports f,
      snapshot {| graph := graph (enter w f); sets := sets w ++ [[]];
                  calls := calls w |})].
Proof.
  split; simpl; try done.
  - by apply prefix_app_r.
  - apply Forall_singleton. simpl. by left.
Qed.

Lemma enter_lookup w f : sets (enter w f) !! length (sets w) = Some [].
Proof. simpl. by rewrite lookup_app_r, Nat.sub_diag by lia. Qed.

Lemma fresh_ref w (m0 new : list (File * SetRef)) f r k :
  WF w → dependenciesPerFile (graph w) = m0 ++ (f, r) :: new →
  k ∈ new.*1 → Map_get (dependenciesPerFile (graph w)) k ≠ Some r.
Proof.
  intros [Hk Hr _] Hm Hin Hget. unfold getResolvedFiles, Map_keys in Hk.
  apply Map_get_Some_elem in Hget. rewrite Hm in Hk, Hr, Hget.
  rewrite fmap_app in Hk. rewrite fmap_app in Hr.
  simpl in *.
  apply NoDup_app in Hk as (_ & Hk1 & [Hk2 _]%NoDup_cons).
  apply NoDup_app in Hr as (_ & Hr1 & [Hr2 _]%NoDup_cons).
  apply elem_of_app in Hget as [Hget|Hget].
  - apply (Hr1 r); [|left]. by apply (list_elem_of_fmap_2' snd _ (k, r)).
  - apply elem_of_cons in Hget as [[= ->]|Hget]; [done|].
    apply Hr2. by apply (list_elem_of_fmap_2' snd _ (k, r)).
Qed.

Lemma body_Sound resolver (visit : Visit) :
  Sound getImports resolver visit →
  Sound getImports resolver (addDependenciesFrom_body getImports visit resolver).
Proof.
  intros Hv f w0 o w' Hwf Hf. rewrite body_enter by done.
  pose proof (enter_WF _ _ Hwf Hf) as Hwf1.
  pose proof (enter_Ext w0 f) as HE1.
  pose proof (enter_lookup w0 f) as Hl1.
  set (r := length (sets w0)) in *.
  destruct (getImports f) as [e|specs] eqn:Hspecs.
  { intros [= <- <-]. eexists _, _. split_and!; [done..|]. done. }
  set (w1 := enter w0 f) in *. clearbody w1. intros Hrun.
  eapply (for_of_rule
    (λ rest w, ∃ new newcalls done ds,
        specs = done ++ rest ∧ resolves resolver f done ds ∧ WF w ∧
        Ext w0 w ((f, r) :: new) newcalls ∧
        sets w !! r = Some (foldl Set_add [] ds) ∧
        Forall (λ d, d ∈ getResolvedFiles w) ds ∧
        Forall (Complete getImports resolver w) new.*1)
    (λ o w, ∃ new newcalls, WF w ∧ Ext w0 w new newcalls ∧
        (o = Fulfilled tt →
         f ∈ new.*1 ∧ Forall (Complete getImports resolver w) new.*1)));
    [ | | | exact Hrun].
  - (* one import *)
    intros imp rest w o1 w2 (new & nc & done & ds & -> & Hres & Hw & HE & Hl
                             & Hk & Hc) Hstep.
    unfold addDependency, bind, await in Hstep.
    destruct (resolveImport resolver f imp) as [e|d] eqn:Hres1;
      simpl in Hstep.
    { injection Hstep as <- <-. eexists _, _. split_and!.
      - by apply WF_calls.
      - apply Ext_resolve; [done|]. by left.
      - done. }
    match type of Hstep with
    | _ ?w = _ => set (wa := w) in *
    end.
    assert (WF wa) as Hwa.
    { apply (WF_alter {| graph := graph w; sets := sets w; calls := _ |}).
      by apply WF_calls. }
    assert (Ext w0 wa ((f, r) :: new)
              (nc ++ [(CallResolveImport f imp, snapshot w)])) as HEa.
    { apply (Ext_alter _ {| graph := graph w; sets := sets w; calls := _ |});
        [|done]. apply Ext_resolve; [done|]. by left. }
    assert (sets wa !! r = Some (foldl Set_add [] (ds ++ [d]))) as Hla.
    { simpl. rewrite list_lookup_alter_eq, Hl. simpl.
      by rewrite foldl_Set_add_snoc. }
    assert (Forall (Complete getImports resolver wa) new.*1) as Hca.
    { apply Forall_forall. intros k Hin.
      apply (Complete_alter _
               {| graph := graph w; sets := sets w; calls := _ |}).
      - simpl. eapply fresh_ref; [exact Hw|apply HE|done].
      - rewrite Forall_forall in Hc. destruct (Hc _ Hin)
          as (sp & dd & ? & ? & ? & ?). by exists sp, dd. }
    assert (resolves resolver f (done ++ [imp]) (ds ++ [d])) as Hres'.
    { apply Forall2_app; [done|]. by constructor. }
    destruct (Map_has (dependenciesPerFile (graph w)) d) eqn:Hhas.
    + injection Hstep as <- <-.
      exists new, (nc ++ [(CallResolveImport f imp, snapshot w)]),
        (done ++ [imp]), (ds ++ [d]).
      split_and!; try done.
      * by rewrite <- app_assoc.
      * apply Forall_app. split; [done|]. apply Forall_singleton.
        by apply Map_has_true in Hhas.
    + apply Map_has_false in Hhas.
      destruct (Hv d wa o1 w2 Hwa Hhas Hstep) as (new2 & nc2 & Hw2 & HE2 & Hful).
      pose proof (Ext_trans _ _ _ _ _ _ _ HEa HE2) as HE02.
      destruct o1 as [[]| |]; [|eexists _, _; by split_and!..].
      destruct (Hful eq_refl) as [Hd Hc2].
      exists (new ++ new2), ((nc ++ [(CallResolveImport f imp, snapshot w)]) ++ nc2),
        (done ++ [imp]), (ds ++ [d]).
      split_and!; try done.
      * by rewrite <- app_assoc.
      * eapply prefix_lookup_Some; [done|]. apply HE2.
      * rewrite (Ext_keys _ _ _ _ HE2). apply Forall_app. split.
        -- eapply Forall_impl; [exact Hk|]. simpl. intros ? ?.
           apply elem_of_app. by left.
        -- apply Forall_singleton. apply elem_of_app. by right.
      * rewrite fmap_app. apply Forall_app. split; [|done].
        eapply Forall_impl; [exact Hca|]. intros ?. by eapply Ext_Complete.
  - (* the loop is over *)
    intros w (new & nc & done & ds & Hsp & Hres & Hw & HE & Hl & Hk & Hc).
    rewrite app_nil_r in Hsp. subst done.
    exists ((f, r) :: new), nc. split_and!; [done..|]. intros _.
    split; [by left|]. simpl. constructor; [|done].
    exists specs, ds. split_and!; try done.
    unfold dependenciesOf. rewrite (ext_map _ _ _ _ HE).
    rewrite Map_get_app_r by done. simpl. by rewrite decide_True.
  - (* before the first import *)
    eexists [], _, [], []. split_and!; try done; constructor.
Qed.

Lemma addDependenciesFrom_Sound fuel resolver :
  Sound getImports resolver (addDependenciesFrom getImports fuel resolver).
Proof.
  induction fuel as [|fuel IH]; simpl.
  - intros f w o w' Hw Hf [= <- <-]. exists [], [].
    split_and!; [done|apply Ext_refl|done].
  - by apply body_Sound.
Qed.

Lemma create_unfold fuel resolver eps w :
  createFromMultipleEntryPoints getImports fuel resolver eps w
  = match visitEntryPoints getImports fuel resolver eps (fresh w eps) with
    | (Fulfilled _, w') => (Fulfilled (graph w'), w')
    | (Rejected e, w') => (Rejected e, w')
    | (Starved, w') => (Starved, w')
    end.
Proof. done. Qed.

Lemma visitEntryPoints_Sound fuel resolver eps w o w' :
  WF w →
  visitEntryPoints getImports fuel resolver eps w = (o, w') →
  ∃ new newcalls, WF w' ∧ Ext w w' new newcalls ∧
    (o = Fulfilled tt →
     Forall (λ e, e ∈ getResolvedFiles w') eps ∧
     Forall (Complete getImports resolver w') new.*1).
Proof.
  intros Hwf Hrun.
  eapply (for_of_rule
    (λ rest w1, ∃ new nc done,
        eps = done ++ rest ∧ WF w1 ∧ Ext w w1 new nc ∧
        Forall (λ e, e ∈ getResolvedFiles w1) done ∧
        Forall (Complete getImports resolver w1) new.*1)
    (λ o w1, ∃ new nc, WF w1 ∧ Ext w w1 new nc ∧
        (o = Fulfilled tt →
         Forall (λ e, e ∈ getResolvedFiles w1) eps ∧
         Forall (Complete getImports resolver w1) new.*1)));
    [ | | | exact Hrun].
  - intros e rest w1 o1 w2 (new & nc & done & -> & Hw & HE & Hk & Hc).
    unfold bind, dependenciesPerFile_has.
    destruct (Map_has (dependenciesPerFile (graph w1)) e) eqn:Hhas.
    + intros [= <- <-]. exists new, nc, (done ++ [e]).
      split_and!; try done; [by rewrite <- app_assoc|].
      apply Forall_app. split; [done|]. apply Forall_singleton.
      by apply Map_has_true in Hhas.
    + apply Map_has_false in Hhas. intros Hstep.
      destruct (addDependenciesFrom_Sound fuel resolver e w1 o1 w2 Hw Hhas
                  Hstep) as (new2 & nc2 & Hw2 & HE2 & Hful).
      pose proof (Ext_trans _ _ _ _ _ _ _ HE HE2) as HE02.
      assert (Forall (Complete getImports resolver w2) new.*1) as Hc'.
      { eapply Forall_impl; [exact Hc|]. intros ?. by eapply Ext_Complete. }
      destruct o1 as [[]| |].
      * destruct (Hful eq_refl) as [He Hc2].
        exists (new ++ new2), (nc ++ nc2), (done ++ [e]).
        split_and!; try done.
        -- by rewrite <- app_assoc.
        -- rewrite (Ext_keys _ _ _ _ HE2). apply Forall_app. split.
           ++ eapply Forall_impl; [exact Hk|]. simpl. intros ? ?.
              apply elem_of_app. by left.
           ++ apply Forall_singleton. apply elem_of_app. by right.
        -- rewrite fmap_app. by apply Forall_app.
      * exists (new ++ new2), (nc ++ nc2). by split_and!.
      * exists (new ++ new2), (nc ++ nc2). by split_and!.
  - intros w1 (new & nc & done & Hd & Hw & HE & Hk & Hc).
    rewrite app_nil_r in Hd. subst done. exists new, nc. by split_and!.
  - exists [], [], []. split_and!; try done; try apply Ext_refl.
    all: by constructor.
Qed.

(** ** The log *)

Lemma Ext_unique w w' n1 n2 (c1 c2 : Log) :
  Ext w w' n1 c1 → Ext w w' n2 c2 → n1 = n2 ∧ c1 = c2.
Proof.
  intros H1 H2. split.
  - apply (app_inv_head (dependenciesPerFile (graph w))).
    rewrite <- (ext_map _ _ _ _ H1). apply H2.
  - apply (app_inv_head (calls w)).
    rewrite <- (ext_calls _ _ _ _ H1). apply H2.
Qed.

Lemma Ext_disjoint w w' new (nc : Log) k :
  WF w' → Ext w w' new nc → k ∈ getResolvedFiles w → k ∉ new.*1.
Proof.
  intros [Hk _ _] HE Hin Hin'. rewrite (Ext_keys _ _ _ _ HE) in Hk.
  apply NoDup_app in Hk as (_ & Hk & _). by apply (Hk k).
Qed.

Lemma Ext_head_fresh w w' f r new (nc : Log) :
  WF w' → Ext w w' ((f, r) :: new) nc → f ∉ new.*1.
Proof.
  intros [Hk _ _] HE. rewrite (Ext_keys _ _ _ _ HE) in Hk.
  apply NoDup_app in Hk as (_ & _ & Hk). rewrite fmap_cons in Hk.
  by apply NoDup_cons in Hk as [? _].
Qed.

Lemma resolved_from_app k (l1 l2 : Log) :
  resolved_from k (l1 ++ l2) = resolved_from k l1 ++ resolved_from k l2.
Proof. apply omap_app. Qed.

Lemma resolved_from_foreign (nc : Log) (keys : list File) k :
  Forall (λ cs : Call * Snapshot, source cs.1 ∈ keys) nc → k ∉ keys →
  resolved_from k nc = [].
Proof.
  intros Hnc Hk. induction Hnc as [|[c s] nc Hc _ IH]; [done|].
  change ((c, s) :: nc) with ([(c, s)] ++ nc).
  rewrite resolved_from_app, IH, app_nil_r.
  destruct c as [f'|f' imp]; [done|]. unfold resolved_from. simpl in *.
  destruct (decide (f' = k)) as [->|]; done.
Qed.

Lemma extracted_app (l1 l2 : Log) :
  extracted (l1 ++ l2) = extracted l1 ++ extracted l2.
Proof. apply omap_app. Qed.

Lemma snapshot_keys w : Map_keys (snapshot w) = getResolvedFiles w.
Proof.
  unfold snapshot, getResolvedFiles, Map_keys.
  rewrite <- list_fmap_compose. done.
Qed.

Lemma Sensible_snoc (l : Log) c s :
  Sensible getImports l →
  Map_keys s = extracted (l ++ [(c, s)]) →
  match c with
  | CallGetImports file => Map_get s file = Some []
  | CallResolveImport file imp =>
      file ∈ Map_keys s ∧ ∃ specs, getImports file = inr specs ∧ imp ∈ specs
  end →
  Sensible getImports (l ++ [(c, s)]).
Proof.
  intros Hl Hs Hc l1 c' s' l2 Heq.
  destruct l2 as [|x l2 _] using rev_ind.
  - apply app_inj_tail in Heq as [-> [= -> ->]]. done.
  - rewrite app_comm_cons, app_assoc in Heq.
    apply app_inj_tail in Heq as [-> _]. by eapply Hl.
Qed.
Lemma Map_get_snapshot w f :
  Map_get (snapshot w) f
  = (λ r, default [] (sets w !! r))
      <$> Map_get (dependenciesPerFile (graph w)) f.
Proof.
  unfold snapshot. induction (dependenciesPerFile (graph w)) as [|[k r] m IH];
    simpl; [done|].
  destruct (decide (k = f)); done.
Qed.

Lemma enter_LogOK w f :
  LogOK getImports w → f ∉ getResolvedFiles w → LogOK getImports (enter w f).
Proof.
  intros [Hx Hs] Hf.
  assert (extracted (calls (enter w f)) = getResolvedFiles (enter w f)) as Hx'.
  { simpl. rewrite extracted_app, Hx. unfold getResolvedFiles, Map_keys.
    simpl. by rewrite fmap_app. }
  split; [done|]. simpl. apply Sensible_snoc; [done| |].
  - rewrite snapshot_keys. symmetry. exact Hx'.
  - rewrite Map_get_snapshot. simpl. rewrite Map_get_app_r by done. simpl.
    rewrite decide_True by done. simpl.
    by rewrite lookup_app_r, Nat.sub_diag by lia.
Qed.

Lemma LogOK_resolve w f imp specs (sets' : list (list File)) :
  LogOK getImports w → f ∈ getResolvedFiles w →
  getImports f = inr specs → imp ∈ specs →
  LogOK getImports
    {| graph := graph w; sets := sets';
       calls := calls w ++ [(CallResolveImport f imp, snapshot w)] |}.
Proof.
  intros [Hx Hs] Hf Hg Hi.
  assert (extracted (calls w ++ [(CallResolveImport f imp, snapshot w)])
          = getResolvedFiles w) as Hx'.
  { rewrite extracted_app, Hx. apply app_nil_r. }
  split; [done|]. apply Sensible_snoc; [done| |].
  - rewrite snapshot_keys. symmetry. exact Hx'.
  - rewrite snapshot_keys. eauto.
Qed.

Lemma body_Logged resolver (visit : Visit) :
  Sound getImports resolver visit → Logged getImports resolver visit →
  Logged getImports resolver
    (addDependenciesFrom_body getImports visit resolver).
Proof.
  intros Hv Hlv f w0 o w' new0 nc0 Hwf Hf Hlog Hrun HE0.
  rewrite body_enter in Hrun by done.
  pose proof (enter_WF _ _ Hwf Hf) as Hwf1.
  pose proof (enter_Ext w0 f) as HE1.
  pose proof (enter_LogOK _ _ Hlog Hf) as Hlog1.
  set (r := length (sets w0)) in *.
  destruct (getImports f) as [e|specs] eqn:Hspecs.
  { injection Hrun as <- <-.
    destruct (Ext_unique _ _ _ _ _ _ HE0 HE1) as [-> ->].
    split_and!; [done| |done]. eexists [], _. split_and!; [done..|].
    simpl. by rewrite Hspecs. }
  set (w1 := enter w0 f) in *.
  match type of HE1 with Ext _ _ _ ?c => set (c1 := c) in * end.
  assert (Forall (ok getImports resolver) c1) as Hok1.
  { apply Forall_singleton. unfold ok. simpl. by rewrite Hspecs. }
  assert (resolved_from f c1 = []) as Hrf1 by done.
  clearbody w1 c1.
  assert (∃ new nc, Ext w0 w' new nc ∧ LogOK getImports w' ∧
            Ended getImports resolver o nc ∧ (o = Fulfilled tt → Counted getImports new nc))
    as (new & nc & HE & ? & ? & ?);
    [|by destruct (Ext_unique _ _ _ _ _ _ HE0 HE) as [-> ->]].
  clear HE0 new0 nc0.
  eapply (for_of_rule
    (λ rest w, ∃ new nc done,
        specs = done ++ rest ∧ WF w ∧ Ext w0 w ((f, r) :: new) nc ∧
        LogOK getImports w ∧ Forall (ok getImports resolver) nc ∧
        resolved_from f nc = done ∧ Counted getImports new nc)
    (λ o w, ∃ new nc, Ext w0 w new nc ∧ LogOK getImports w ∧
        Ended getImports resolver o nc ∧ (o = Fulfilled tt → Counted getImports new nc)));
    [ | | | exact Hrun].
  - intros imp rest w o1 w2 (new & nc & done & -> & Hw & HE & Hl & Hok & Hrf
                             & Hcnt) Hstep.
    assert (f ∈ getResolvedFiles w) as Hfw.
    { rewrite (Ext_keys _ _ _ _ HE). apply elem_of_app. right. by left. }
    assert (imp ∈ done ++ imp :: rest) as Himp.
    { apply elem_of_app. right. by left. }
    unfold addDependency, bind, await in Hstep.
    destruct (resolveImport resolver f imp) as [e|d] eqn:Hres1;
      simpl in Hstep.
    { injection Hstep as <- <-. eexists _, _. split_and!.
      - apply Ext_resolve; [done|]. by left.
      - by eapply LogOK_resolve.
      - eexists nc, _. split_and!; [done..|]. simpl. by rewrite Hres1.
      - done. }
    match type of Hstep with
    | _ ?w = _ => set (wa := w) in *
    end.
    set (c := (CallResolveImport f imp, snapshot w)) in *.
    assert (WF wa) as Hwa.
    { apply (WF_alter {| graph := graph w; sets := sets w; calls := _ |}).
      by apply WF_calls. }
    assert (Ext w0 wa ((f, r) :: new) (nc ++ [c])) as HEa.
    { apply (Ext_alter _ {| graph := graph w; sets := sets w; calls := _ |});
        [|done]. apply Ext_resolve; [done|]. by left. }
    assert (LogOK getImports wa) as Hla by (by eapply LogOK_resolve).
    assert (Forall (ok getImports resolver) (nc ++ [c])) as Hoka.
    { apply Forall_app. split; [done|]. apply Forall_singleton.
      unfold ok. simpl. by rewrite Hres1. }
    assert (resolved_from f (nc ++ [c]) = done ++ [imp]) as Hrfa.
    { rewrite resolved_from_app, Hrf. unfold resolved_from at 1. simpl.
      by rewrite decide_True. }
    pose proof (Ext_head_fresh _ _ _ _ _ _ Hwa HEa) as Hfnew.
    assert (Counted getImports new (nc ++ [c])) as Hcnta.
    { intros k sp Hk Hsp. rewrite resolved_from_app, (Hcnt k sp) by done.
      unfold resolved_from. simpl.
      rewrite decide_False, app_nil_r; [done|]. by intros ->. }
    destruct (Map_has (dependenciesPerFile (graph w)) d) eqn:Hhas.
    + injection Hstep as <- <-. exists new, (nc ++ [c]), (done ++ [imp]).
      split_and!; try done. by rewrite <- app_assoc.
    + apply Map_has_false in Hhas.
      destruct (Hv d wa o1 w2 Hwa Hhas Hstep) as (new2 & nc2 & Hw2 & HE2 & _).
      destruct (Hlv d wa o1 w2 new2 nc2 Hwa Hhas Hla Hstep HE2)
        as (Hl2 & Hend2 & Hcnt2).
      pose proof (Ext_trans _ _ _ _ _ _ _ HEa HE2) as HE02.
      destruct o1 as [[]|e|].
      * exists (new ++ new2), ((nc ++ [c]) ++ nc2), (done ++ [imp]).
        split_and!; try done.
        -- by rewrite <- app_assoc.
        -- by apply Forall_app.
        -- rewrite resolved_from_app, Hrfa.
           rewrite (resolved_from_foreign nc2 new2.*1), app_nil_r;
             [done|apply HE2|].
           by eapply Ext_disjoint.
        -- intros k sp Hk Hsp. rewrite fmap_app in Hk.
           rewrite resolved_from_app.
           apply elem_of_app in Hk as [Hk|Hk].
           ++ rewrite (Hcnta k sp) by done.
              rewrite (resolved_from_foreign nc2 new2.*1), app_nil_r;
                [done|apply HE2|].
              eapply Ext_disjoint; [done..|].
              rewrite (Ext_keys _ _ _ _ HEa). apply elem_of_app. right.
              by right.
           ++ rewrite (Hcnt2 eq_refl k sp) by done.
              rewrite (resolved_from_foreign _ ((f, r) :: new).*1);
                [done|apply HEa|].
              intros Hk'. eapply Ext_disjoint; [exact Hw2|exact HE2| |done].
              rewrite (Ext_keys _ _ _ _ HEa). apply elem_of_app. by right.
      * destruct Hend2 as (l & c' & -> & Hokl & Hf').
        exists (((f, r) :: new) ++ new2), ((nc ++ [c]) ++ l ++ [c']).
        split_and!; try done. exists ((nc ++ [c]) ++ l), c'.
        split_and!; [by rewrite <- !app_assoc| |done]. by apply Forall_app.
      * exists (((f, r) :: new) ++ new2), ((nc ++ [c]) ++ nc2).
        split_and!; try done. simpl. by apply Forall_app.
  - intros w (new & nc & done & Hsp & Hw & HE & Hl & Hok & Hrf & Hcnt).
    rewrite app_nil_r in Hsp. subst done.
    exists ((f, r) :: new), nc. split_and!; try done.
    intros _ k sp Hk Hsp. rewrite fmap_cons in Hk.
    apply elem_of_cons in Hk as [->|Hk]; [|by apply Hcnt].
    simpl in *. congruence.
  - exists [], c1, []. split_and!; try done.
    intros k sp Hk. by apply elem_of_nil in Hk.
Qed.

Lemma addDependenciesFrom_Logged fuel resolver :
  Logged getImports resolver (addDependenciesFrom getImports fuel resolver).
Proof.
  induction fuel as [|fuel IH]; simpl.
  - intros f w o w' new nc Hw Hf Hl [= <- <-] HE.
    destruct (Ext_unique _ _ _ _ _ _ HE (Ext_refl w)) as [-> ->].
    split_and!; [done|by constructor|done].
  - apply body_Logged; [|done]. apply addDependenciesFrom_Sound.
Qed.

Lemma visitEntryPoints_Logged fuel resolver eps w o w' new0 nc0 :
  WF w → LogOK getImports w →
  visitEntryPoints getImports fuel resolver eps w = (o, w') →
  Ext w w' new0 nc0 →
  LogOK getImports w' ∧ Ended getImports resolver o nc0 ∧
  (o = Fulfilled tt → Counted getImports new0 nc0).
Proof.
  intros Hwf Hlog Hrun HE0.
  assert (∃ new nc, Ext w w' new nc ∧ LogOK getImports w' ∧
            Ended getImports resolver o nc ∧
            (o = Fulfilled tt → Counted getImports new nc))
    as (new & nc & HE & ? & ? & ?);
    [|by destruct (Ext_unique _ _ _ _ _ _ HE0 HE) as [-> ->]].
  clear HE0 new0 nc0.
  eapply (for_of_rule
    (λ (rest : list File) w1, ∃ new nc,
        WF w1 ∧ Ext w w1 new nc ∧ LogOK getImports w1 ∧
        Forall (ok getImports resolver) nc ∧ Counted getImports new nc)
    (λ o w1, ∃ new nc, Ext w w1 new nc ∧ LogOK getImports w1 ∧
        Ended getImports resolver o nc ∧
        (o = Fulfilled tt → Counted getImports new nc)));
    [ | | | exact Hrun].
  - intros e rest w1 o1 w2 (new & nc & Hw & HE & Hl & Hok & Hcnt).
    unfold bind, dependenciesPerFile_has.
    destruct (Map_has (dependenciesPerFile (graph w1)) e) eqn:Hhas.
    + intros [= <- <-]. exists new, nc. by split_and!.
    + apply Map_has_false in Hhas. intros Hstep.
      destruct (addDependenciesFrom_Sound fuel resolver e w1 o1 w2 Hw Hhas
                  Hstep) as (new2 & nc2 & Hw2 & HE2 & _).
      destruct (addDependenciesFrom_Logged fuel resolver e w1 o1 w2 new2 nc2
                  Hw Hhas Hl Hstep HE2) as (Hl2 & Hend2 & Hcnt2).
      pose proof (Ext_trans _ _ _ _ _ _ _ HE HE2) as HE02.
      destruct o1 as [[]|err|].
      * exists (new ++ new2), (nc ++ nc2). split_and!; try done.
        -- by apply Forall_app.
        -- intros k sp Hk Hsp. rewrite fmap_app in Hk.
           rewrite resolved_from_app.
           apply elem_of_app in Hk as [Hk|Hk].
           ++ rewrite (Hcnt k sp) by done.
              rewrite (resolved_from_foreign nc2 new2.*1), app_nil_r;
                [done|apply HE2|].
              eapply Ext_disjoint; [done..|].
              rewrite (Ext_keys _ _ _ _ HE). apply elem_of_app. by right.
           ++ rewrite (Hcnt2 eq_refl k sp) by done.
              rewrite (resolved_from_foreign _ new.*1); [done|apply HE|].
              intros Hk'. eapply Ext_disjoint; [exact Hw2|exact HE2| |done].
              rewrite (Ext_keys _ _ _ _ HE). apply elem_of_app. by right.
      * destruct Hend2 as (l & c' & -> & Hokl & Hf').
        exists (new ++ new2), (nc ++ l ++ [c']).
        split_and!; try done. exists (nc ++ l), c'.
        split_and!; [by rewrite <- !app_assoc| |done]. by apply Forall_app.
      * exists (new ++ new2), (nc ++ nc2).
        split_and!; try done. simpl. by apply Forall_app.
  - intros w1 (new & nc & Hw & HE & Hl & Hok & Hcnt).
    exists new, nc. by split_and!.
  - exists [], []. split_and!; try done; try apply Ext_refl.
    intros k sp Hk. by apply elem_of_nil in Hk.
Qed.

(** ** The whole build *)

Lemma boot_WF eps : WF (fresh (@boot File Spec) eps).
Proof. split; simpl; constructor. Qed.

Lemma boot_LogOK eps : LogOK getImports (fresh (@boot File Spec) eps).
Proof.
  split; [done|]. intros l1 c s l2 Heq. simpl in Heq.
  by destruct l1.
Qed.

Lemma create_spec fuel resolver eps o w' :
  createFromMultipleEntryPoints getImports fuel resolver eps boot = (o, w') →
  WF w' ∧ LogOK getImports w' ∧ Ended getImports resolver o (calls w') ∧
  entryPoints (graph w') = eps ∧
  (∀ g, o = Fulfilled g →
     g = graph w' ∧
     Forall (λ e, e ∈ getResolvedFiles w') eps ∧
     Forall (Complete getImports resolver w') (getResolvedFiles w') ∧
     Counted getImports (dependenciesPerFile (graph w')) (calls w')).
Proof.
  rewrite create_unfold.
  destruct (visitEntryPoints getImports fuel resolver eps (fresh boot eps))
    as [o1 w1] eqn:Hrun.
  destruct (visitEntryPoints_Sound fuel resolver eps _ o1 w1 (boot_WF eps)
              Hrun) as (new & nc & Hw & HE & Hful).
  destruct (visitEntryPoints_Logged fuel resolver eps _ o1 w1 new nc
              (boot_WF eps) (boot_LogOK eps) Hrun HE) as (Hl & Hend & Hcnt).
  assert (calls w1 = nc) as Hnc by apply HE.
  assert (dependenciesPerFile (graph w1) = new) as Hnew by apply HE.
  assert (entryPoints (graph w1) = eps) as Hep by apply HE.
  destruct o1 as [[]|e|]; intros [= <- <-]; subst nc new;
    (split_and!; [done..|]); [|done..].
  intros g [= <-]. destruct (Hful eq_refl). split_and!; try done.
  by apply Hcnt.
Qed.

(** ** Fuel *)

Lemma for_of_Refines {A} (body body' : A → @M File Spec Err unit) :
  (∀ x w o w', body x w = (o, w') → o ≠ Starved → body' x w = (o, w')) →
  ∀ xs w o w', for_of xs body w = (o, w') → o ≠ Starved →
    for_of xs body' w = (o, w').
Proof.
  intros Hb xs. induction xs as [|x xs IH]; intros w o w'; simpl; [done|].
  unfold bind. destruct (body x w) as [o1 w1] eqn:Hx.
  destruct o1 as [[]|e|].
  - rewrite (Hb _ _ _ _ Hx) by done. apply IH.
  - intros [= <- <-] _. by rewrite (Hb _ _ _ _ Hx).
  - by intros [= <- <-].
Qed.

Lemma body_Refines resolver (visit visit' : Visit) :
  Refines visit visit' →
  Refines (addDependenciesFrom_body getImports visit resolver)
          (addDependenciesFrom_body getImports visit' resolver).
Proof.
  intros Hv f w o w'.
  unfold addDependenciesFrom_body, bind, new_Set, dependenciesPerFile_set.
  simpl. unfold await at 1 2. destruct (getImports f) as [e|specs]; [done|].
  apply for_of_Refines. clear -Hv. intros imp w1 o1 w2.
  unfold addDependency, bind, await.
  destruct (resolveImport resolver f imp) as [e|d]; [done|]. simpl.
  destruct (Map_has _ d); [done|]. apply Hv.
Qed.

Lemma addDependenciesFrom_S fuel resolver :
  Refines (addDependenciesFrom getImports fuel resolver)
          (addDependenciesFrom getImports (S fuel) resolver).
Proof.
  induction fuel as [|fuel IH].
  - intros f w o w' [= <- <-]. done.
  - by apply body_Refines.
Qed.

Lemma addDependenciesFrom_le fuel fuel' resolver :
  fuel ≤ fuel' →
  Refines (addDependenciesFrom getImports fuel resolver)
          (addDependenciesFrom getImports fuel' resolver).
Proof.
  induction 1 as [|fuel' _ IH]; [by intros ? ? ? ?|].
  intros f w o w' Hrun Ho. apply addDependenciesFrom_S; [|done]. by apply IH.
Qed.

Lemma create_le fuel fuel' resolver eps w o w' :
  fuel ≤ fuel' →
  createFromMultipleEntryPoints getImports fuel resolver eps w = (o, w') →
  o ≠ Starved →
  createFromMultipleEntryPoints getImports fuel' resolver eps w = (o, w').
Proof.
  intros Hle. rewrite !create_unfold.
  destruct (visitEntryPoints getImports fuel resolver eps (fresh w eps))
    as [o1 w1] eqn:Hrun.
  intros Ho1 Ho.
  assert (o1 ≠ Starved) as Ho1' by (by destruct o1; simplify_eq).
  unfold visitEntryPoints in *.
  erewrite for_of_Refines; [exact Ho1| |exact Hrun|exact Ho1'].
  clear -Hle. intros e w o w'. unfold bind, dependenciesPerFile_has.
  destruct (Map_has _ e); [done|]. by apply addDependenciesFrom_le.
Qed.

(** ** Termination *)

Lemma unvisited_mono (U : list File) w w' :
  (∀ k, k ∈ getResolvedFiles w → k ∈ getResolvedFiles w') →
  unvisited U w' ≤ unvisited U w.
Proof.
  intros Hsub. unfold unvisited. induction U as [|u U IH]; [done|].
  rewrite !filter_cons.
  destruct (decide (u ∉ getResolvedFiles w')) as [Hn'|Hi'];
    destruct (decide (u ∉ getResolvedFiles w)) as [Hn|Hi]; simpl; try lia.
  exfalso. apply Hi. intros Hu. by apply Hn', Hsub.
Qed.

Lemma unvisited_lt (U : list File) w w' f :
  (∀ k, k ∈ getResolvedFiles w → k ∈ getResolvedFiles w') →
  f ∈ U → f ∉ getResolvedFiles w → f ∈ getResolvedFiles w' →
  unvisited U w' < unvisited U w.
Proof.
  intros Hsub HU Hf Hf'. unfold unvisited.
  induction HU as [f U|f u U HU IH]; rewrite !filter_cons.
  2: specialize (IH Hf Hf').
  - rewrite decide_False by auto. rewrite decide_True by done. simpl.
    pose proof (unvisited_mono U w w' Hsub). unfold unvisited in *. lia.
  - destruct (decide (u ∉ getResolvedFiles w')) as [Hn'|Hi'];
      destruct (decide (u ∉ getResolvedFiles w)) as [Hn|Hi]; simpl; try lia.
    exfalso. apply Hi. intros Hu. by apply Hn', Hsub.
Qed.

Lemma unvisited_bound (U : list File) w : unvisited U w ≤ length U.
Proof. apply length_filter. Qed.

Lemma addDependenciesFrom_terminates resolver (U : list File) :
  Closed getImports resolver U →
  ∀ fuel f w o w',
    WF w → f ∉ getResolvedFiles w → f ∈ U →
    Forall (λ k, k ∈ U) (getResolvedFiles w) → unvisited U w ≤ fuel →
    addDependenciesFrom getImports fuel resolver f w = (o, w') →
    o ≠ Starved ∧ Forall (λ k, k ∈ U) (getResolvedFiles w').
Proof.
  intros HU fuel. induction fuel as [|fuel IH];
    intros f w o w' Hwf Hf HfU HkU Hfuel.
  { exfalso. pose proof (enter_Ext w f) as HE.
    assert (unvisited U (enter w f) < unvisited U w); [|lia].
    apply (unvisited_lt _ _ _ f); try done.
    - intros k Hk. rewrite (Ext_keys _ _ _ _ HE). apply elem_of_app. by left.
    - rewrite (Ext_keys _ _ _ _ HE). apply elem_of_app. right. by left. }
  simpl. rewrite body_enter by done.
  pose proof (enter_WF _ _ Hwf Hf) as Hwf1.
  pose proof (enter_Ext w f) as HE1.
  assert (unvisited U (enter w f) ≤ fuel) as Hfuel1.
  { assert (unvisited U (enter w f) < unvisited U w); [|lia].
    apply (unvisited_lt _ _ _ f); try done.
    - intros k Hk. rewrite (Ext_keys _ _ _ _ HE1). apply elem_of_app. by left.
    - rewrite (Ext_keys _ _ _ _ HE1). apply elem_of_app. right. by left. }
  assert (Forall (λ k, k ∈ U) (getResolvedFiles (enter w f))) as HkU1.
  { rewrite (Ext_keys _ _ _ _ HE1). apply Forall_app. split; [done|].
    by apply Forall_singleton. }
  destruct (getImports f) as [e|specs] eqn:Hspecs.
  { by intros [= <- <-]. }
  set (w1 := enter w f) in *. clearbody w1.
  set (r := length (sets w)) in *. clearbody r.
  apply (for_of_rule
    (λ rest w2, (∀ imp, imp ∈ rest → imp ∈ specs) ∧ WF w2 ∧
                unvisited U w2 ≤ fuel ∧
                Forall (λ k, k ∈ U) (getResolvedFiles w2))
    (λ o w2, o ≠ Starved ∧ Forall (λ k, k ∈ U) (getResolvedFiles w2))).
  - intros imp rest w2 o2 w3 (Hrest & Hw2 & Hfuel2 & HkU2).
    unfold addDependency, bind, await.
    destruct (resolveImport resolver f imp) as [e|d] eqn:Hres; simpl.
    { by intros [= <- <-]. }
    assert (d ∈ U) as HdU.
    { eapply HU; [exact HfU|exact Hspecs| |exact Hres]. apply Hrest. by left. }
    match goal with
    | |- _ ?w = _ → _ => set (wa := w) in *
    end.
    assert (WF wa) as Hwa.
    { apply (WF_alter {| graph := graph w2; sets := sets w2; calls := _ |}).
      by apply WF_calls. }
    assert (∀ imp', imp' ∈ rest → imp' ∈ specs) as Hrest'.
    { intros imp' Hi. apply Hrest. by right. }
    destruct (Map_has (dependenciesPerFile (graph w2)) d) eqn:Hhas.
    + by intros [= <- <-].
    + apply Map_has_false in Hhas. intros Hstep.
      destruct (IH d wa o2 w3 Hwa Hhas HdU HkU2 Hfuel2 Hstep) as [Ho Hk3].
      destruct (addDependenciesFrom_Sound fuel resolver d wa o2 w3 Hwa Hhas
                  Hstep) as (new & nc & Hw3 & HE3 & _).
      destruct o2 as [[]|e|]; [|done..]. split_and!; try done.
      etrans; [|exact Hfuel2]. apply (unvisited_mono U wa w3).
      intros k Hk. rewrite (Ext_keys _ _ _ _ HE3). apply elem_of_app. by left.
  - by intros w2 (_ & _ & _ & ?).
  - done.
Qed.

Lemma create_terminates resolver (U : list File) fuel eps o w' :
  Closed getImports resolver U → Forall (λ e, e ∈ U) eps → length U ≤ fuel →
  createFromMultipleEntryPoints getImports fuel resolver eps boot = (o, w') →
  o ≠ Starved ∧ Forall (λ k, k ∈ U) (getResolvedFiles w').
Proof.
  intros HU Heps Hfuel. rewrite create_unfold.
  destruct (visitEntryPoints getImports fuel resolver eps (fresh boot eps))
    as [o1 w1] eqn:Hrun.
  assert (o1 ≠ Starved ∧ Forall (λ k, k ∈ U) (getResolvedFiles w1))
    as [Ho1 Hk1]; [|by destruct o1; intros [= <- <-]].
  revert Hrun. apply (for_of_rule
    (λ rest w2, (∀ e, e ∈ rest → e ∈ U) ∧ WF w2 ∧ unvisited U w2 ≤ fuel ∧
                Forall (λ k, k ∈ U) (getResolvedFiles w2))
    (λ o w2, o ≠ Starved ∧ Forall (λ k, k ∈ U) (getResolvedFiles w2))).
  - intros e rest w2 o2 w3 (Hrest & Hw2 & Hfuel2 & HkU2).
    unfold bind, dependenciesPerFile_has.
    assert (∀ e', e' ∈ rest → e' ∈ U) as Hrest'.
    { intros e' Hi. apply Hrest. by right. }
    destruct (Map_has (dependenciesPerFile (graph w2)) e) eqn:Hhas.
    + by intros [= <- <-].
    + apply Map_has_false in Hhas. intros Hstep.
      assert (e ∈ U) as HeU by (apply Hrest; by left).
      destruct (addDependenciesFrom_terminates resolver U HU fuel e w2 o2 w3
                  Hw2 Hhas HeU HkU2 Hfuel2 Hstep) as [Ho Hk3].
      destruct (addDependenciesFrom_Sound fuel resolver e w2 o2 w3 Hw2 Hhas
                  Hstep) as (new & nc & Hw3 & HE3 & _).
      destruct o2 as [[]|err|]; [|done..]. split_and!; try done.
      etrans; [|exact Hfuel2]. apply (unvisited_mono U w2 w3).
      intros k Hk. rewrite (Ext_keys _ _ _ _ HE3). apply elem_of_app. by left.
  - by intros w2 (_ & _ & _ & ?).
  - split_and!.
    + by apply Forall_forall.
    + apply boot_WF.
    + etrans; [apply unvisited_bound|done].
    + constructor.
Qed.

(** ** What a finished visit leaves in the graph *)

Lemma Complete_dependenciesOf resolver w f :
  Complete getImports resolver w f →
  ∃ ds, dependenciesOf w f = Some ds ∧ NoDup ds ∧
        ∀ d, d ∈ ds ↔ imports getImports resolver f d.
Proof.
  intros (specs & ds & Hg & Hr & Hd & _).
  exists (foldl Set_add [] ds). split_and!; [done| |].
  - apply foldl_Set_add_NoDup. constructor.
  - intros d. rewrite foldl_Set_add_elem, elem_of_nil. split.
    + intros [[]|Hin]. apply list_elem_of_lookup in Hin as [i Hi].
      destruct (Forall2_lookup_r _ _ _ _ _ Hr Hi) as (imp & Himp & Hres).
      exists specs, imp. split_and!; [done| |done].
      apply list_elem_of_lookup. eauto.
    + intros (specs' & imp & Hg' & Hin & Hres). right.
      assert (specs' = specs) as -> by congruence.
      apply list_elem_of_lookup in Hin as [i Hi].
      destruct (Forall2_lookup_l _ _ _ _ _ Hr Hi) as (d' & Hd' & Hres').
      assert (d' = d) as -> by congruence.
      apply list_elem_of_lookup. eauto.
Qed.

Lemma Complete_imports resolver w f d :
  Complete getImports resolver w f → imports getImports resolver f d →
  d ∈ getResolvedFiles w.
Proof.
  intros (specs & ds & Hg & Hr & _ & Hk) (specs' & imp & Hg' & Hin & Hres).
  assert (specs' = specs) as -> by congruence.
  apply list_elem_of_lookup in Hin as [i Hi].
  destruct (Forall2_lookup_l _ _ _ _ _ Hr Hi) as (d' & Hd' & Hres').
  assert (d' = d) as -> by congruence.
  rewrite Forall_forall in Hk. apply Hk. apply list_elem_of_lookup. eauto.
Qed.

Lemma reachable_key resolver w e f :
  Forall (Complete getImports resolver w) (getResolvedFiles w) →
  e ∈ getResolvedFiles w → reachable getImports resolver e f →
  f ∈ getResolvedFiles w.
Proof.
  intros Hc He Hr. induction Hr as [|f d _ IH Himp]; [done|].
  rewrite Forall_forall in Hc. by eapply Complete_imports; [apply Hc|].
Qed.

Lemma filter_absent (l : list File) f :
  f ∉ l → filter (λ x, x = f) l = [].
Proof.
  induction l as [|x l IH]; [done|].
  intros [Hne Hl]%not_elem_of_cons. rewrite filter_cons.
  rewrite decide_False by congruence. auto.
Qed.

Lemma getImports_calls_key (l : Log) (keys : list File) f :
  extracted l = keys → NoDup keys → f ∈ keys → getImports_calls f l = 1.
Proof.
  unfold getImports_calls. intros -> Hnd Hf.
  induction Hnd as [|k keys Hk Hnd IH]; [by apply elem_of_nil in Hf|].
  rewrite filter_cons. destruct (decide (k = f)) as [->|Hne]; simpl.
  - by rewrite filter_absent.
  - apply IH. by apply elem_of_cons in Hf as [->|Hf].
Qed.

Lemma Healthy_ok resolver (U : list File) w cs :
  LogOK getImports w → Forall (λ k, k ∈ U) (getResolvedFiles w) →
  Healthy getImports resolver U → cs ∈ calls w →
  ok getImports resolver cs.
Proof.
  intros [Hx Hs] HU Hh Hin. destruct cs as [c s].
  apply list_elem_of_split in Hin as (l1 & l2 & Hcalls).
  destruct (Hs _ _ _ _ Hcalls) as [Hkeys Hc].
  assert (∀ k, k ∈ Map_keys s → k ∈ U) as HsU.
  { intros k Hk. rewrite Forall_forall in HU. apply HU.
    rewrite <- Hx, Hcalls. rewrite Hkeys in Hk.
    change ((c, s) :: l2) with ([(c, s)] ++ l2).
    rewrite app_assoc, extracted_app. apply elem_of_app. by left. }
  unfold ok. destruct c as [f|f imp]; simpl.
  - assert (f ∈ Map_keys s) as Hf.
    { apply dec_stable. intros Hn. apply Map_get_None in Hn. congruence. }
    destruct (Hh f (HsU f Hf)) as (specs & -> & _). done.
  - destruct Hc as (Hf & specs & Hg & Himp).
    destruct (Hh f (HsU f Hf)) as (specs' & Hg' & Hres).
    assert (specs' = specs) as -> by congruence.
    by destruct (Hres imp Himp) as [d ->].
Qed.

(** ** The properties of the specification *)

(** C1 (cycle termination).  Take a build over the files of a project:
    a finite [universe] that holds the entry points and whatever its
    files import.  Let [c] be a file on a cycle of imports (of length one
    or more) that an entry point reaches.  With fuel for
    the [universe] the build ends: it is fulfilled or rejected, never
    starved; it is fulfilled when no call on the [universe] is rejected;
    and the graph [g] it is fulfilled with is the graph the build worked
    on, has [c] as a key, and maps [c] to a [Set] that holds exactly the
    files [c] imports, each once and each a key of [g]. *)
Theorem cycle_termination resolver (universe eps : list File) fuel c :
  Closed getImports resolver universe →
  Forall (λ e, e ∈ universe) eps →
  length universe ≤ fuel →
  on_cycle getImports resolver c →
  (∃ e, e ∈ eps ∧ reachable getImports resolver e c) →
  ∃ o w',
    createFromMultipleEntryPoints getImports fuel resolver eps boot = (o, w')
    ∧ o ≠ Starved
    ∧ (Healthy getImports resolver universe → ∃ g, o = Fulfilled g)
    ∧ (∀ g, o = Fulfilled g →
         g = graph w' ∧ c ∈ Map_keys (dependenciesPerFile g) ∧
         ∃ r ds,
           Map_get (dependenciesPerFile g) c = Some r ∧
           sets w' !! r = Some ds ∧ dependenciesOf w' c = Some ds ∧
           NoDup ds ∧
           (∀ d, d ∈ ds ↔ imports getImports resolver c d) ∧
           (∀ d, d ∈ ds → d ∈ Map_keys (dependenciesPerFile g))).
Proof.
  intros HU Heps Hfuel _ (e & He & Hreach).
  destruct (createFromMultipleEntryPoints getImports fuel resolver eps boot)
    as [o w'] eqn:Hrun.
  exists o, w'. split; [done|].
  destruct (create_terminates _ _ _ _ _ _ HU Heps Hfuel Hrun) as [Ho HkU].
  destruct (create_spec _ _ _ _ _ Hrun) as (Hw & Hl & Hend & _ & Hful).
  split_and!; [done| |].
  - intros Hh. destruct o as [g|err|]; [by eexists| |done].
    destruct Hend as (l & cs & Hcalls & _ & Hfail).
    assert (ok getImports resolver cs) as Hok.
    { eapply Healthy_ok; [done..|]. rewrite Hcalls.
      apply elem_of_app. right. by left. }
    unfold ok in Hok. congruence.
  - intros g Hg. destruct (Hful g Hg) as (-> & Hk & Hc & _).
    assert (c ∈ getResolvedFiles w') as Hcw.
    { eapply reachable_key; [done| |done].
      rewrite Forall_forall in Hk. by apply Hk. }
    rewrite Forall_forall in Hc. pose proof (Hc c Hcw) as Hcc.
    destruct (Complete_dependenciesOf _ _ _ Hcc) as (ds & Hd & Hnd & Hin).
    split_and!; [done..|]. pose proof Hd as Hd'. unfold dependenciesOf in Hd'.
    destruct (Map_get (dependenciesPerFile (graph w')) c) as [r|] eqn:Hget;
      [|done]. simpl in Hd'.
    exists r, ds. split_and!; try done.
    intros d Hdin. eapply Complete_imports; [exact Hcc|]. by apply Hin.
Qed.

(** C2, amended (idempotent admission).  In the graph a build is
    fulfilled with, a file that entry points reach, by however many
    paths, is a key once; [getImports] was called on it once; and
    [resolveImport] was called with it as source once for each specifier
    of the file, in order: not at all for a file without imports. *)
Theorem visited_once resolver eps fuel g w' e f :
  createFromMultipleEntryPoints getImports fuel resolver eps boot
  = (Fulfilled g, w') →
  e ∈ eps → reachable getImports resolver e f →
  length (filter (λ k, k = f) (Map_keys (dependenciesPerFile g))) = 1
  ∧ getImports_calls f (calls w') = 1
  ∧ ∃ specs, getImports f = inr specs ∧
             resolved_from f (calls w') = specs ∧
             resolveImport_calls f (calls w') = length specs.
Proof.
  intros Hrun He Hreach.
  destruct (create_spec _ _ _ _ _ Hrun) as (Hw & [Hx Hs] & _ & _ & Hful).
  destruct (Hful g eq_refl) as (-> & Hk & Hc & Hcnt).
  assert (f ∈ getResolvedFiles w') as Hf.
  { eapply reachable_key; [done| |done].
    rewrite Forall_forall in Hk. by apply Hk. }
  pose proof (getImports_calls_key _ _ f Hx (wf_keys _ Hw) Hf) as Hone.
  split_and!; [|done|].
  - unfold getImports_calls in Hone. by rewrite Hx in Hone.
  - rewrite Forall_forall in Hc.
    destruct (Hc f Hf) as (specs & ds & Hg & _). exists specs.
    unfold resolveImport_calls. by rewrite (Hcnt f specs Hf Hg).
Qed.

(** C3 (completeness).  In the graph a build is fulfilled with, every
    file an entry point reaches by a chain of imports is a key, and the
    set of a key holds each file the key imports. *)
Theorem completeness resolver eps fuel g w' :
  createFromMultipleEntryPoints getImports fuel resolver eps boot
  = (Fulfilled g, w') →
  (∀ e f, e ∈ eps → reachable getImports resolver e f →
          f ∈ Map_keys (dependenciesPerFile g))
  ∧ (∀ f d, f ∈ Map_keys (dependenciesPerFile g) →
            imports getImports resolver f d →
            ∃ ds, dependenciesOf w' f = Some ds ∧ d ∈ ds).
Proof.
  intros Hrun.
  destruct (create_spec _ _ _ _ _ Hrun) as (Hw & _ & _ & _ & Hful).
  destruct (Hful g eq_refl) as (-> & Hk & Hc & _). split.
  - intros e f He Hreach. eapply reachable_key; [done| |done].
    rewrite Forall_forall in Hk. by apply Hk.
  - intros f d Hf Himp. rewrite Forall_forall in Hc.
    destruct (Complete_dependenciesOf _ _ _ (Hc f Hf)) as (ds & Hd & _ & Hin).
    exists ds. split; [done|]. by apply Hin.
Qed.

(** C4 (failure isolation).  When a call to [getImports] or to
    [resolveImport] is rejected during a build, the build is rejected
    with the error of that call, which is the first rejected call and the
    last call made; no graph is returned.  A rejected build always stops
    at such a call. *)
Theorem fail_fast resolver eps fuel o w' :
  createFromMultipleEntryPoints getImports fuel resolver eps boot = (o, w') →
  (∀ cs err, cs ∈ calls w' → failure getImports resolver cs.1 = Some err →
     o = Rejected err ∧ (∀ g, o ≠ Fulfilled g) ∧
     ∃ l, calls w' = l ++ [cs] ∧ Forall (ok getImports resolver) l)
  ∧ (∀ err, o = Rejected err →
       ∃ l cs, calls w' = l ++ [cs] ∧ Forall (ok getImports resolver) l ∧
               failure getImports resolver cs.1 = Some err).
Proof.
  intros Hrun.
  destruct (create_spec _ _ _ _ _ Hrun) as (_ & _ & Hend & _ & _). split.
  - intros cs err Hin Hfail.
    assert (¬ Forall (ok getImports resolver) (calls w')) as Hnot.
    { rewrite Forall_forall. intros Hall. specialize (Hall _ Hin).
      unfold ok in Hall. congruence. }
    destruct o as [g|err'|]; [done| |done].
    destruct Hend as (l & cs' & Hcalls & Hok & Hfail').
    rewrite Hcalls in Hin. apply elem_of_app in Hin as [Hin|Hin].
    { rewrite Forall_forall in Hok. specialize (Hok _ Hin).
      unfold ok in Hok. congruence. }
    apply list_elem_of_singleton in Hin as ->.
    split_and!; [congruence|done|by exists l].
  - intros err ->. exact Hend.
Qed.

(** *** Every visit enters its file first *)














(** C7 (resolved files).  [getResolvedFiles] yields the keys in the order
    the files were entered, which is the order of the calls to
    [getImports]; no file comes twice; and the keys any call saw are an
    initial part of the final sequence. *)
Theorem resolved_files_order resolver eps fuel o w' :
  createFromMultipleEntryPoints getImports fuel resolver eps boot = (o, w') →
  getResolvedFiles w' = extracted (calls w')
  ∧ NoDup (getResolvedFiles w')
  ∧ (∀ cs, cs ∈ calls w' → Map_keys cs.2 `prefix_of` getResolvedFiles w')
  ∧ (∀ g, o = Fulfilled g →
       Map_keys (dependenciesPerFile g) = getResolvedFiles w').
Proof.
  intros Hrun.
  destruct (create_spec _ _ _ _ _ Hrun) as (Hw & [Hx Hs] & _ & _ & Hful).
  split_and!; [done|apply Hw| |].
  - intros [c s] Hin. apply list_elem_of_split in Hin as (l1 & l2 & Hcalls).
    destruct (Hs _ _ _ _ Hcalls) as [Hkeys _]. simpl.
    rewrite Hkeys, <- Hx, Hcalls.
    change ((c, s) :: l2) with ([(c, s)] ++ l2).
    rewrite app_assoc, (extracted_app _ l2). by apply prefix_app_r.
  - intros g Hg. by destruct (Hful g Hg) as (-> & _).
Qed.

(** C8 (dependencies of a file).  On the graph a build is fulfilled
    with, reading [dependenciesPerFile] at a key gives its set, which is
    empty exactly when the file imports nothing, and reading it at a file
    that is no key gives [undefined]. *)
Theorem dependencies_of_file resolver eps fuel g w' f :
  createFromMultipleEntryPoints getImports fuel resolver eps boot
  = (Fulfilled g, w') →
  (f ∈ Map_keys (dependenciesPerFile g) →
     ∃ ds, dependenciesOf w' f = Some ds ∧
           (getImports f = inr [] → ds = []) ∧
           (ds = [] ↔ ∀ d, ¬ imports getImports resolver f d))
  ∧ (f ∉ Map_keys (dependenciesPerFile g) → dependenciesOf w' f = None).
Proof.
  intros Hrun.
  destruct (create_spec _ _ _ _ _ Hrun) as (Hw & _ & _ & _ & Hful).
  destruct (Hful g eq_refl) as (-> & _ & Hc & _). split.
  - intros Hf. rewrite Forall_forall in Hc. specialize (Hc f Hf).
    destruct (Complete_dependenciesOf _ _ _ Hc) as (ds & Hd & _ & Hin).
    exists ds. split_and!; [done| |].
    + intros Hg. destruct ds as [|d ds]; [done|].
      destruct (proj1 (Hin d)) as (specs & imp & Hg' & Himp & _); [by left|].
      assert (specs = []) as -> by congruence. by apply elem_of_nil in Himp.
    + split.
      * intros -> d Hd'. apply Hin in Hd'. by apply elem_of_nil in Hd'.
      * intros Hno. destruct ds as [|d ds]; [done|].
        destruct (Hno d). apply Hin. by left.
  - intros Hf. apply Map_get_None in Hf. unfold dependenciesOf.
    by rewrite Hf.
Qed.

(** C10 (single entry point).  [createFromEntryPoint] is
    [createFromMultipleEntryPoints] on the one-element sequence: with the
    same fuel and from the same world both end the same way in the same
    world, so keys, sets, order and errors agree; and both are one visit
    of the entry point on a new graph. *)
Theorem single_entry_point resolver fuel e w :
  createFromEntryPoint getImports fuel resolver e w
  = createFromMultipleEntryPoints getImports fuel resolver [e] w
  ∧ createFromEntryPoint getImports fuel resolver e w
    = match addDependenciesFrom getImports fuel resolver e (fresh w [e]) with
      | (Fulfilled _, w') => (Fulfilled (graph w'), w')
      | (Rejected err, w') => (Rejected err, w')
      | (Starved, w') => (Starved, w')
      end.
Proof.
  split; [done|]. unfold createFromEntryPoint. rewrite create_unfold.
  unfold visitEntryPoints. simpl. unfold bind, dependenciesPerFile_has.
  simpl.
  destruct (addDependenciesFrom getImports fuel resolver e (fresh w [e]))
    as [[[]|err|] w1]; done.
Qed.

(** * Further properties of the class *)

(** ** Only what is imported becomes a key *)

Lemma addDependenciesFrom_within resolver (P : File → Prop) :
  (∀ f d, P f → imports getImports resolver f d → P d) →
  ∀ fuel f w o w',
    f ∉ getResolvedFiles w → P f → Forall P (getResolvedFiles w) →
    addDependenciesFrom getImports fuel resolver f w = (o, w') →
    Forall P (getResolvedFiles w').
Proof.
  intros HP fuel. induction fuel as [|fuel IH]; intros f w o w' Hf HPf HPw.
  { by intros [= <- <-]. }
  simpl. rewrite body_enter by done.
  assert (Forall P (getResolvedFiles (enter w f))) as HP1.
  { rewrite (Ext_keys _ _ _ _ (enter_Ext w f)). apply Forall_app.
    split; [done|]. by apply Forall_singleton. }
  destruct (getImports f) as [e|specs] eqn:Hspecs.
  { by intros [= <- <-]. }
  set (w1 := enter w f) in *. clearbody w1.
  set (r := length (sets w)) in *. clearbody r.
  apply (for_of_rule
    (λ rest w2, (∀ imp, imp ∈ rest → imp ∈ specs) ∧
                Forall P (getResolvedFiles w2))
    (λ o w2, Forall P (getResolvedFiles w2))).
  - intros imp rest w2 o2 w3 [Hrest HP2].
    unfold addDependency, bind, await.
    destruct (resolveImport resolver f imp) as [e|d] eqn:Hres; simpl.
    { by intros [= <- <-]. }
    assert (P d) as HPd.
    { apply (HP f); [done|]. exists specs, imp.
      split_and!; [done| |done]. apply Hrest. by left. }
    assert (∀ imp', imp' ∈ rest → imp' ∈ specs) as Hrest'.
    { intros imp' Hi. apply Hrest. by right. }
    destruct (Map_has (dependenciesPerFile (graph w2)) d) eqn:Hhas.
    + by intros [= <- <-].
    + apply Map_has_false in Hhas. intros Hstep.
      pose proof (λ a b c, IH d _ o2 w3 a b c Hstep) as HP3.
      specialize (HP3 Hhas HPd HP2). by destruct o2 as [[]|e|].
  - by intros w2 [_ ?].
  - done.
Qed.

Lemma create_within resolver (P : File → Prop) eps fuel o w' :
  (∀ f d, P f → imports getImports resolver f d → P d) →
  Forall P eps →
  createFromMultipleEntryPoints getImports fuel resolver eps boot = (o, w') →
  Forall P (getResolvedFiles w').
Proof.
  intros HP Heps. rewrite create_unfold.
  destruct (visitEntryPoints getImports fuel resolver eps (fresh boot eps))
    as [o1 w1] eqn:Hrun.
  assert (Forall P (getResolvedFiles w1)) as HP1;
    [|by destruct o1; intros [= <- <-]].
  revert Hrun. apply (for_of_rule
    (λ rest w2, (∀ e, e ∈ rest → P e) ∧ Forall P (getResolvedFiles w2))
    (λ o w2, Forall P (getResolvedFiles w2))).
  - intros e rest w2 o2 w3 [Hrest HP2]. unfold bind, dependenciesPerFile_has.
    assert (∀ e', e' ∈ rest → P e') as Hrest'.
    { intros e' Hi. apply Hrest. by right. }
    destruct (Map_has (dependenciesPerFile (graph w2)) e) eqn:Hhas.
    + by intros [= <- <-].
    + apply Map_has_false in Hhas. intros Hstep.
      assert (P e) as HPe by (apply Hrest; by left).
      pose proof (addDependenciesFrom_within resolver P HP fuel e w2 o2 w3
                    Hhas HPe HP2 Hstep) as HP3.
      by destruct o2 as [[]|err|].
  - by intros w2 [_ ?].
  - split; [by apply Forall_forall|constructor].
Qed.

Lemma keys_reachable resolver eps fuel o w' k :
  createFromMultipleEntryPoints getImports fuel resolver eps boot = (o, w') →
  k ∈ getResolvedFiles w' →
  ∃ e, e ∈ eps ∧ reachable getImports resolver e k.
Proof.
  intros Hrun. revert k. apply Forall_forall.
  apply (create_within resolver
           (λ k, ∃ e, e ∈ eps ∧ reachable getImports resolver e k)
           eps fuel o w'); [| |done].
  - intros f d (e & He & Hr) Himp. exists e. split; [done|].
    by eapply reachable_step.
  - apply Forall_forall. intros e He. exists e. split; [done|].
    apply reachable_refl.
Qed.

Lemma keys_exact resolver eps fuel g w' k :
  createFromMultipleEntryPoints getImports fuel resolver eps boot
  = (Fulfilled g, w') →
  k ∈ Map_keys (dependenciesPerFile g) ↔
  ∃ e, e ∈ eps ∧ reachable getImports resolver e k.
Proof.
  intros Hrun.
  destruct (create_spec _ _ _ _ _ Hrun) as (_ & _ & _ & _ & Hful).
  destruct (Hful g eq_refl) as (-> & Hk & Hc & _).
  split; [by eapply keys_reachable|]. intros (e & He & Hr).
  eapply reachable_key; [done| |done]. rewrite Forall_forall in Hk. auto.
Qed.

(** X1.  Whichever way a build ends, every key of its graph is a file
    that some entry point reaches by a chain of imports; in the graph a
    build is fulfilled with, the keys are exactly those files. *)
Theorem only_reachable_files resolver eps fuel o w' :
  createFromMultipleEntryPoints getImports fuel resolver eps boot = (o, w') →
  (∀ k, k ∈ getResolvedFiles w' →
        ∃ e, e ∈ eps ∧ reachable getImports resolver e k)
  ∧ (∀ g, o = Fulfilled g →
       ∀ k, k ∈ Map_keys (dependenciesPerFile g) ↔
            ∃ e, e ∈ eps ∧ reachable getImports resolver e k).
Proof.
  intros Hrun. split.
  - intros k. by eapply keys_reachable.
  - intros g -> k. by eapply keys_exact.
Qed.

(** ** What the sets hold *)

Lemma resolves_functional resolver f specs ds1 ds2 :
  resolves resolver f specs ds1 → resolves resolver f specs ds2 → ds1 = ds2.
Proof.
  intros H1. revert ds2. induction H1 as [|imp d specs ds1 Hd _ IH];
    intros ds2 H2; inversion H2 as [|? d' ? ds2' Hd' H2']; subst; [done|].
  f_equal; [congruence|by apply IH].
Qed.

(** X2.  In the graph a build is fulfilled with, the set of a key is what
    adding the files its specifiers resolve to, one by one in the order of
    the specifiers, to an empty [Set] gives: every resolved file once, in
    the order of its first specifier, and each of them is a key. *)
Theorem dependency_sets resolver eps fuel g w' f :
  createFromMultipleEntryPoints getImports fuel resolver eps boot
  = (Fulfilled g, w') →
  f ∈ Map_keys (dependenciesPerFile g) →
  ∃ specs ds,
    getImports f = inr specs ∧ resolves resolver f specs ds ∧
    dependenciesOf w' f = Some (foldl Set_add [] ds) ∧
    NoDup (foldl Set_add [] ds) ∧
    (∀ d, d ∈ foldl Set_add [] ds ↔ d ∈ ds) ∧
    (∀ d, d ∈ ds → d ∈ Map_keys (dependenciesPerFile g)).
Proof.
  intros Hrun Hf.
  destruct (create_spec _ _ _ _ _ Hrun) as (_ & _ & _ & _ & Hful).
  destruct (Hful g eq_refl) as (-> & _ & Hc & _).
  rewrite Forall_forall in Hc.
  destruct (Hc f Hf) as (specs & ds & Hg & Hr & Hd & Hk).
  exists specs, ds. split_and!; try done.
  - apply foldl_Set_add_NoDup. constructor.
  - intros d. rewrite foldl_Set_add_elem, elem_of_nil. tauto.
  - by apply Forall_forall.
Qed.

(** X3.  The order of the entry points, and how often each is given, is
    of no account to what the graph holds: two fulfilled builds whose
    entry points are the same files have the same files as keys and the
    same set for every file. *)
Theorem entry_order_irrelevant resolver eps1 eps2 fuel1 fuel2 g1 w1 g2 w2 :
  (∀ e, e ∈ eps1 ↔ e ∈ eps2) →
  createFromMultipleEntryPoints getImports fuel1 resolver eps1 boot
  = (Fulfilled g1, w1) →
  createFromMultipleEntryPoints getImports fuel2 resolver eps2 boot
  = (Fulfilled g2, w2) →
  (∀ k, k ∈ Map_keys (dependenciesPerFile g1) ↔
        k ∈ Map_keys (dependenciesPerFile g2))
  ∧ (∀ f, dependenciesOf w1 f = dependenciesOf w2 f).
Proof.
  intros Heps Hrun1 Hrun2.
  pose proof (λ k, keys_exact _ _ _ _ _ k Hrun1) as Hk1.
  pose proof (λ k, keys_exact _ _ _ _ _ k Hrun2) as Hk2.
  assert (∀ k, k ∈ Map_keys (dependenciesPerFile g1) ↔
               k ∈ Map_keys (dependenciesPerFile g2)) as Hkeys.
  { intros k. rewrite Hk1, Hk2. split; intros (e & He & Hr); exists e;
      (split; [by apply Heps|done]). }
  split; [done|]. intros f.
  destruct (create_spec _ _ _ _ _ Hrun1) as (_ & _ & _ & _ & Hful1).
  destruct (create_spec _ _ _ _ _ Hrun2) as (_ & _ & _ & _ & Hful2).
  destruct (Hful1 g1 eq_refl) as (-> & _ & Hc1 & _).
  destruct (Hful2 g2 eq_refl) as (-> & _ & Hc2 & _).
  destruct (decide (f ∈ getResolvedFiles w1)) as [Hf|Hf].
  - rewrite Forall_forall in Hc1, Hc2.
    destruct (Hc1 f Hf) as (specs & ds & Hg & Hr & -> & _).
    destruct (Hc2 f (proj1 (Hkeys f) Hf)) as (specs' & ds' & Hg' & Hr' & -> & _).
    assert (specs' = specs) as -> by congruence.
    by rewrite (resolves_functional _ _ _ _ _ Hr Hr').
  - assert (f ∉ getResolvedFiles w2) as Hf' by (by rewrite <- (Hkeys f)).
    apply Map_get_None in Hf, Hf'. unfold dependenciesOf.
    by rewrite Hf, Hf'.
Qed.

(** ** The store and the calls *)

Lemma NoDup_snd_inj (m : list (File * SetRef)) k1 k2 r :
  NoDup m.*2 → (k1, r) ∈ m → (k2, r) ∈ m → k1 = k2.
Proof.
  induction m as [|[k r'] m IH]; simpl.
  - by intros _ ?%elem_of_nil.
  - intros [Hr Hnd]%NoDup_cons H1 H2.
    apply elem_of_cons in H1 as [[= -> ->]|H1];
      apply elem_of_cons in H2 as [[= ->]|H2]; try done.
    + destruct Hr. by apply (list_elem_of_fmap_2' snd _ (k2, r')).
    + simplify_eq. destruct Hr.
      by apply (list_elem_of_fmap_2' snd _ (k1, r')).
    + by apply IH.
Qed.

(** X4.  Whichever way a build ends, every key of its graph holds a
    [Set] of its own: the object exists and no other key holds it. *)
Theorem sets_not_shared resolver eps fuel o w' :
  createFromMultipleEntryPoints getImports fuel resolver eps boot = (o, w') →
  (∀ k, k ∈ getResolvedFiles w' → is_Some (dependenciesOf w' k))
  ∧ (∀ k1 k2 r,
       Map_get (dependenciesPerFile (graph w')) k1 = Some r →
       Map_get (dependenciesPerFile (graph w')) k2 = Some r → k1 = k2).
Proof.
  intros Hrun.
  destruct (create_spec _ _ _ _ _ Hrun) as ([Hk Hr Hb] & _). split.
  - intros k Hin. unfold dependenciesOf.
    destruct (Map_get (dependenciesPerFile (graph w')) k) as [r|] eqn:Hget.
    + simpl. apply lookup_lt_is_Some. apply Map_get_Some_elem in Hget.
      rewrite Forall_forall in Hb. by apply (Hb _ Hget).
    + by apply Map_get_None in Hget.
  - intros k1 k2 r H1%Map_get_Some_elem H2%Map_get_Some_elem.
    by eapply NoDup_snd_inj.
Qed.

(** X5.  Whichever way a build ends, every call it made was about a file
    that an entry point reaches, and every call to [resolveImport] passed a
    specifier that [getImports] had listed for its source file. *)
Theorem calls_are_warranted resolver eps fuel o w' c s :
  createFromMultipleEntryPoints getImports fuel resolver eps boot = (o, w') →
  (c, s) ∈ calls w' →
  (∃ e, e ∈ eps ∧ reachable getImports resolver e (source c))
  ∧ match c with
    | CallGetImports _ => True
    | CallResolveImport f imp =>
        ∃ specs, getImports f = inr specs ∧ imp ∈ specs
    end.
Proof.
  intros Hrun Hin.
  destruct (create_spec _ _ _ _ _ Hrun) as (_ & [Hx Hs] & _).
  pose proof (λ k, keys_reachable _ _ _ _ _ k Hrun) as Honly.
  apply list_elem_of_split in Hin as (l1 & l2 & Hcalls).
  destruct (Hs _ _ _ _ Hcalls) as [Hkeys Hc].
  assert (∀ k, k ∈ Map_keys s → k ∈ getResolvedFiles w') as Hsub.
  { intros k Hk. rewrite <- Hx, Hcalls. rewrite Hkeys in Hk.
    change ((c, s) :: l2) with ([(c, s)] ++ l2).
    rewrite app_assoc, extracted_app. apply elem_of_app. by left. }
  destruct c as [f|f imp]; simpl.
  - split; [|done]. apply Honly, Hsub.
    apply dec_stable. intros Hn. apply Map_get_None in Hn. congruence.
  - destruct Hc as [Hf Hspecs]. split; [|done]. by apply Honly, Hsub.
Qed.

(** X6.  Whichever way a build ends, [getImports] was called once on
    each key of the graph and on no other file. *)
Theorem getImports_once_per_key resolver eps fuel o w' f :
  createFromMultipleEntryPoints getImports fuel resolver eps boot = (o, w') →
  getImports_calls f (calls w')
  = if decide (f ∈ getResolvedFiles w') then 1 else 0.
Proof.
  intros Hrun.
  destruct (create_spec _ _ _ _ _ Hrun) as (Hw & [Hx Hs] & _).
  destruct (decide (f ∈ getResolvedFiles w')) as [Hf|Hf].
  - eapply getImports_calls_key; [done|apply Hw|done].
  - unfold getImports_calls. rewrite Hx. by rewrite filter_absent.
Qed.

(** X7.  Whichever way a build ends, the [entryPoints] of its graph are
    the sequence that was passed in, in its order and with its
    repetitions. *)
Theorem entry_points_kept resolver eps fuel o w' :
  createFromMultipleEntryPoints getImports fuel resolver eps boot = (o, w') →
  entryPoints (graph w') = eps ∧ (∀ g, o = Fulfilled g → entryPoints g = eps).
Proof.
  intros Hrun.
  destruct (create_spec _ _ _ _ _ Hrun) as (_ & _ & _ & Hep & Hful).
  split; [done|]. intros g Hg. by destruct (Hful g Hg) as (-> & _).
Qed.

(** ** Entry points that are keys already *)

Lemma for_of_app {A} (body : A → @M File Spec Err unit) xs ys w :
  for_of (xs ++ ys) body w
  = bind (for_of xs body) (λ _, for_of ys body) w.
Proof.
  revert w. induction xs as [|x xs IH]; intros w; simpl.
  - unfold bind, ret. done.
  - unfold bind in *. destruct (body x w) as [[[]|e|] w1]; [|done..].
    apply IH.
Qed.

Lemma for_of_relabel {A} eps (body : A → @M File Spec Err unit) xs w :
  (∀ x w, body x (relabel eps w)
          = ((body x w).1, relabel eps (body x w).2)) →
  for_of xs body (relabel eps w)
  = ((for_of xs body w).1, relabel eps (for_of xs body w).2).
Proof.
  intros Hb. revert w. induction xs as [|x xs IH]; intros w; simpl; [done|].
  unfold bind. rewrite Hb. destruct (body x w) as [[[]|e|] w1]; simpl; auto.
Qed.

Lemma addDependenciesFrom_relabel fuel resolver eps f w :
  addDependenciesFrom getImports fuel resolver f (relabel eps w)
  = ((addDependenciesFrom getImports fuel resolver f w).1,
     relabel eps (addDependenciesFrom getImports fuel resolver f w).2).
Proof.
  revert f w. induction fuel as [|fuel IH]; intros f w; [done|]. simpl.
  unfold addDependenciesFrom_body, bind, new_Set, dependenciesPerFile_set.
  simpl. unfold await at 1 2 3. destruct (getImports f) as [e|specs]; [done|].
  match goal with
  | |- _ = ((for_of _ ?b ?w2).1, _) => apply (for_of_relabel eps b specs w2)
  end.
  intros imp w2. unfold addDependency, bind, await.
  destruct (resolveImport resolver f imp) as [e|d]; [done|]. simpl.
  destruct (Map_has _ d); [done|].
  match goal with
  | |- _ = ((addDependenciesFrom _ _ _ _ ?w3).1, _) => exact (IH d w3)
  end.
Qed.

Lemma visitEntryPoints_relabel fuel resolver eps xs w :
  visitEntryPoints getImports fuel resolver xs (relabel eps w)
  = ((visitEntryPoints getImports fuel resolver xs w).1,
     relabel eps (visitEntryPoints getImports fuel resolver xs w).2).
Proof.
  apply for_of_relabel. intros e w2.
  unfold bind, dependenciesPerFile_has. simpl.
  destruct (Map_has _ e); [done|]. apply addDependenciesFrom_relabel.
Qed.

Lemma visitEntryPoints_skip fuel resolver xs w :
  (∀ e, e ∈ xs → e ∈ getResolvedFiles w) →
  visitEntryPoints getImports fuel resolver xs w = (Fulfilled tt, w).
Proof.
  unfold visitEntryPoints. induction xs as [|x xs IH]; intros Hxs; [done|].
  simpl. unfold bind at 1 2, dependenciesPerFile_has.
  assert (Map_has (dependenciesPerFile (graph w)) x = true) as ->.
  { apply Map_has_true, Hxs. by left. }
  simpl. apply IH. intros e He. apply Hxs. by right.
Qed.

Lemma visitEntryPoints_app fuel resolver xs ys w :
  visitEntryPoints getImports fuel resolver (xs ++ ys) w
  = match visitEntryPoints getImports fuel resolver xs w with
    | (Fulfilled _, w') => visitEntryPoints getImports fuel resolver ys w'
    | (Rejected e, w') => (Rejected e, w')
    | (Starved, w') => (Starved, w')
    end.
Proof. unfold visitEntryPoints. by rewrite for_of_app. Qed.

(** X8.  Entry points that are keys by the time their turn comes are
    passed over: after entry points a build is fulfilled with, further
    entry points that are already keys (repetitions, or files the earlier
    ones import) add no key, no set and no call; the build is fulfilled
    with the same graph but for its [entryPoints]. *)
Theorem repeated_entry_points resolver eps1 eps2 fuel g1 w1 :
  createFromMultipleEntryPoints getImports fuel resolver eps1 boot
  = (Fulfilled g1, w1) →
  (∀ e, e ∈ eps2 → e ∈ Map_keys (dependenciesPerFile g1)) →
  createFromMultipleEntryPoints getImports fuel resolver (eps1 ++ eps2) boot
  = (Fulfilled (graph (relabel (eps1 ++ eps2) w1)),
     relabel (eps1 ++ eps2) w1).
Proof.
  rewrite !create_unfold. intros Hrun Heps2.
  destruct (visitEntryPoints getImports fuel resolver eps1 (fresh boot eps1))
    as [o1 w1'] eqn:Hrun1.
  destruct o1 as [[]|e|]; [|done..]. injection Hrun as <- <-.
  change (fresh boot (eps1 ++ eps2))
    with (relabel (eps1 ++ eps2) (fresh (@boot File Spec) eps1)).
  rewrite visitEntryPoints_app, visitEntryPoints_relabel, Hrun1. simpl.
  by rewrite visitEntryPoints_skip.
Qed.

(** ** Visiting a file again *)

Lemma Map_set_keys_present {V} (m : list (File * V)) k v :
  k ∈ Map_keys m → Map_keys (Map_set m k v) = Map_keys m.
Proof.
  unfold Map_keys. induction m as [|[k' v'] m IH]; simpl.
  - by intros ?%elem_of_nil.
  - intros Hk. destruct (decide (k' = k)) as [->|Hne]; [done|]. simpl.
    f_equal. apply IH. by apply elem_of_cons in Hk as [->|Hk].
Qed.

Lemma revisit_loop resolver (visit : Visit) f r specs ds :
  resolves resolver f specs ds →
  ∀ w acc,
    Forall (λ d, d ∈ getResolvedFiles w) ds → sets w !! r = Some acc →
    ∃ w',
      for_of specs (addDependency visit resolver f r) w = (Fulfilled tt, w')
      ∧ graph w' = graph w
      ∧ sets w' = <[r := foldl Set_add acc ds]> (sets w)
      ∧ (calls w').*1 = (calls w).*1 ++ (CallResolveImport f <$> specs).
Proof.
  induction 1 as [|imp d specs ds Hd _ IH]; intros w acc Hk Hacc.
  - exists w. simpl. rewrite app_nil_r. split_and!; try done.
    symmetry. by apply list_insert_id.
  - apply Forall_cons in Hk as [Hdk Hk]. simpl.
    unfold bind at 1, addDependency at 1, bind, await. rewrite Hd. simpl.
    assert (Map_has (dependenciesPerFile (graph w)) d = true) as ->
      by (by apply Map_has_true).
    simpl.
    match goal with
    | |- ∃ w', for_of _ _ ?w1 = _ ∧ _ =>
        destruct (IH w1 (Set_add acc d)) as (w' & Hrun & Hg & Hs & Hc)
    end.
    { done. }
    { cbn [sets]. rewrite list_lookup_alter_eq.
      exact (f_equal (fmap (λ s, Set_add s d)) Hacc). }
    exists w'. split_and!; [done|done| |].
    + rewrite Hs. cbn [sets].
      rewrite !list_insert_alter, list_alter_alter_eq. done.
    + rewrite Hc. cbn [calls]. rewrite fmap_app. cbn [fmap list_fmap fst].
      by rewrite <- app_assoc.
Qed.

Lemma snapshot_revisit (m : list (File * SetRef)) (store : list (list File))
    f r0 s :
  Forall (λ fr : File * SetRef, fr.2 < length store) m →
  Map_get m f = Some r0 → store !! r0 = Some s →
  (λ fr : File * SetRef, (fr.1, default [] ((store ++ [s]) !! fr.2)))
    <$> Map_set m f (length store)
  = (λ fr : File * SetRef, (fr.1, default [] (store !! fr.2))) <$> m.
Proof.
  induction m as [|[k v] m IH]; simpl; [done|].
  intros [Hv Hm]%Forall_cons Hget Hs. simpl in Hv.
  destruct (decide (k = f)) as [->|Hne].
  - injection Hget as ->. simpl. f_equal.
    + by rewrite lookup_app_r, Nat.sub_diag, Hs by lia.
    + apply Forall_fmap_ext. eapply Forall_impl; [exact Hm|].
      intros [k' v'] Hlt. simpl in *. f_equal. by rewrite lookup_app_l.
  - simpl. f_equal; [|by apply IH]. by rewrite lookup_app_l.
Qed.

(** X9.  [addDependenciesFrom] called once more on a key of a graph a
    build was fulfilled with is fulfilled at once, with fuel for one call:
    it asks [getImports] and [resolveImport] for the file again, visits no
    other file, and leaves the keys, their order and every set as they
    were. *)
Theorem revisit_changes_nothing resolver eps fuel fuel' g w f :
  createFromMultipleEntryPoints getImports fuel resolver eps boot
  = (Fulfilled g, w) →
  f ∈ Map_keys (dependenciesPerFile g) →
  ∃ w' specs,
    addDependenciesFrom getImports (S fuel') resolver f w
    = (Fulfilled tt, w')
    ∧ getImports f = inr specs
    ∧ snapshot w' = snapshot w
    ∧ getResolvedFiles w' = getResolvedFiles w
    ∧ (calls w').*1
      = (calls w).*1 ++ CallGetImports f :: (CallResolveImport f <$> specs).
Proof.
  intros Hrun Hf.
  destruct (create_spec _ _ _ _ _ Hrun) as ([Hk Hr Hb] & _ & _ & _ & Hful).
  destruct (Hful g eq_refl) as (-> & _ & Hc & _).
  rewrite Forall_forall in Hc.
  destruct (Hc f Hf) as (specs & ds & Hg & Hres & Hd & Hds).
  unfold dependenciesOf in Hd.
  destruct (Map_get (dependenciesPerFile (graph w)) f) as [r0|] eqn:Hget;
    [|done]. simpl in Hd.
  simpl. unfold addDependenciesFrom_body, bind, new_Set,
    dependenciesPerFile_set. simpl. unfold await at 1. rewrite Hg. simpl.
  match goal with
  | |- ∃ w' specs', for_of _ _ ?w1 = _ ∧ _ =>
      destruct (revisit_loop resolver
                  (addDependenciesFrom getImports fuel' resolver) f
                  (length (sets w)) specs ds Hres w1 [])
        as (w' & Hloop & Hgraph & Hsets & Hcalls)
  end.
  { unfold getResolvedFiles. simpl. by rewrite Map_set_keys_present. }
  { simpl. by rewrite lookup_app_r, Nat.sub_diag by lia. }
  exists w', specs. split_and!; [done|done| | |].
  - unfold snapshot. rewrite Hgraph, Hsets. simpl.
    rewrite insert_app_r_alt, Nat.sub_diag by lia. simpl.
    by eapply snapshot_revisit.
  - unfold getResolvedFiles. rewrite Hgraph. simpl.
    by rewrite Map_set_keys_present.
  - rewrite Hcalls. simpl. rewrite fmap_app. simpl.
    by rewrite <- app_assoc.
Qed.

(** ** Invariants of a build *)

(** A property of worlds that entering a file and resolving a specifier
    keep is kept by a whole visit, whichever way it ends. *)
Lemma addDependenciesFrom_invariant resolver (J : World → Prop) :
  (∀ w f, WF w → f ∉ getResolvedFiles w → J w → J (enter w f)) →
  (∀ w f imp specs r e,
     WF w → J w → Map_get (dependenciesPerFile (graph w)) f = Some r →
     getImports f = inr specs → imp ∈ specs →
     resolveImport resolver f imp = inl e → J (resolved w f imp None)) →
  (∀ w f imp specs r d,
     WF w → J w → Map_get (dependenciesPerFile (graph w)) f = Some r →
     getImports f = inr specs → imp ∈ specs →
     resolveImport resolver f imp = inr d →
     J (resolved w f imp (Some (r, d)))) →
  ∀ fuel f w o w',
    WF w → f ∉ getResolvedFiles w → J w →
    addDependenciesFrom getImports fuel resolver f w = (o, w') → J w'.
Proof.
  intros Henter Hfail Hadd fuel.
  induction fuel as [|fuel IH]; intros f w0 o w' Hwf Hf HJ.
  { by intros [= <- <-]. }
  simpl. rewrite body_enter by done.
  pose proof (enter_WF _ _ Hwf Hf) as Hwf1.
  pose proof (enter_Ext w0 f) as HE1.
  pose proof (Henter _ _ Hwf Hf HJ) as HJ1.
  destruct (getImports f) as [e|specs] eqn:Hspecs.
  { by intros [= <- <-]. }
  set (w1 := enter w0 f) in *. clearbody w1.
  set (r := length (sets w0)) in *.
  apply (for_of_rule
    (λ rest w2, (∀ imp, imp ∈ rest → imp ∈ specs) ∧ WF w2 ∧ J w2 ∧
                ∃ new nc, Ext w0 w2 ((f, r) :: new) nc)
    (λ o w2, J w2)).
  - intros imp rest w2 o2 w3 (Hrest & Hw2 & HJ2 & new & nc & HE2).
    assert (Map_get (dependenciesPerFile (graph w2)) f = Some r) as Hget.
    { rewrite (ext_map _ _ _ _ HE2), Map_get_app_r by done. simpl.
      by rewrite decide_True. }
    assert (imp ∈ specs) as Himp by (apply Hrest; by left).
    assert (∀ imp', imp' ∈ rest → imp' ∈ specs) as Hrest'.
    { intros imp' Hi. apply Hrest. by right. }
    unfold addDependency, bind, await.
    destruct (resolveImport resolver f imp) as [e|d] eqn:Hres; simpl.
    { intros [= <- <-]. by eapply (Hfail w2 f imp specs r e). }
    pose proof (Hadd w2 f imp specs r d Hw2 HJ2 Hget Hspecs Himp Hres) as HJa.
    unfold resolved in HJa.
    match goal with
    | |- _ ?w = _ → _ => set (wa := w) in *
    end.
    assert (WF wa) as Hwa.
    { apply (WF_alter {| graph := graph w2; sets := sets w2; calls := _ |}).
      by apply WF_calls. }
    assert (Ext w0 wa ((f, r) :: new)
              (nc ++ [(CallResolveImport f imp, snapshot w2)])) as HEa.
    { apply (Ext_alter _ {| graph := graph w2; sets := sets w2;
                            calls := _ |}).
      - apply Ext_resolve; [done|]. by left.
      - done. }
    destruct (Map_has (dependenciesPerFile (graph w2)) d) eqn:Hhas.
    + intros [= <- <-]. split_and!; try done. by eexists _, _.
    + apply Map_has_false in Hhas. intros Hstep.
      pose proof (λ a b c, IH d wa o2 w3 a b c Hstep) as HJ3.
      specialize (HJ3 Hwa Hhas HJa).
      destruct (addDependenciesFrom_Sound fuel resolver d wa o2 w3 Hwa Hhas
                  Hstep) as (new2 & nc2 & Hw3 & HE3 & _).
      destruct o2 as [[]|e|]; [|done..]. split_and!; try done.
      pose proof (Ext_trans _ _ _ _ _ _ _ HEa HE3). by eexists _, _.
  - by intros w2 (_ & _ & ? & _).
  - split_and!; try done. by eexists [], _.
Qed.

Lemma create_invariant resolver (J : World → Prop) eps fuel o w' :
  (∀ w f, WF w → f ∉ getResolvedFiles w → J w → J (enter w f)) →
  (∀ w f imp specs r e,
     WF w → J w → Map_get (dependenciesPerFile (graph w)) f = Some r →
     getImports f = inr specs → imp ∈ specs →
     resolveImport resolver f imp = inl e → J (resolved w f imp None)) →
  (∀ w f imp specs r d,
     WF w → J w → Map_get (dependenciesPerFile (graph w)) f = Some r →
     getImports f = inr specs → imp ∈ specs →
     resolveImport resolver f imp = inr d →
     J (resolved w f imp (Some (r, d)))) →
  J (fresh boot eps) →
  createFromMultipleEntryPoints getImports fuel resolver eps boot = (o, w') →
  J w'.
Proof.
  intros Henter Hfail Hadd HJ0. rewrite create_unfold.
  destruct (visitEntryPoints getImports fuel resolver eps (fresh boot eps))
    as [o1 w1] eqn:Hrun.
  assert (J w1) as HJ1; [|by destruct o1; intros [= <- <-]].
  revert Hrun. apply (for_of_rule (λ (_ : list File) w2, WF w2 ∧ J w2)
                        (λ o w2, J w2)).
  - intros e rest w2 o2 w3 [Hw2 HJ2]. unfold bind, dependenciesPerFile_has.
    destruct (Map_has (dependenciesPerFile (graph w2)) e) eqn:Hhas.
    + by intros [= <- <-].
    + apply Map_has_false in Hhas. intros Hstep.
      pose proof (addDependenciesFrom_invariant resolver J Henter Hfail Hadd
                    fuel e w2 o2 w3 Hw2 Hhas HJ2 Hstep) as HJ3.
      destruct (addDependenciesFrom_Sound fuel resolver e w2 o2 w3 Hw2 Hhas
                  Hstep) as (new & nc & Hw3 & _).
      by destruct o2 as [[]|err|].
  - by intros w2 [_ ?].
  - split; [apply boot_WF|done].
Qed.

Lemma WF_ref_inj w k1 k2 r :
  WF w →
  Map_get (dependenciesPerFile (graph w)) k1 = Some r →
  Map_get (dependenciesPerFile (graph w)) k2 = Some r → k1 = k2.
Proof.
  intros [_ Hr _] H1%Map_get_Some_elem H2%Map_get_Some_elem.
  by eapply NoDup_snd_inj.
Qed.

Lemma dependenciesOf_enter w f k :
  WF w → f ∉ getResolvedFiles w →
  dependenciesOf (enter w f) k
  = if decide (k = f) then Some [] else dependenciesOf w k.
Proof.
  intros [_ _ Hb] Hf. unfold dependenciesOf. simpl.
  destruct (Map_get (dependenciesPerFile (graph w)) k) as [r0|] eqn:Hget.
  - rewrite (Map_get_app_l _ _ _ _ Hget). simpl.
    assert (k ≠ f) as Hne.
    { intros ->. apply Map_get_None in Hf. congruence. }
    rewrite decide_False by done. apply lookup_app_l.
    apply Map_get_Some_elem in Hget. rewrite Forall_forall in Hb.
    apply (Hb _ Hget).
  - apply Map_get_None in Hget. rewrite Map_get_app_r by done. simpl.
    destruct (decide (f = k)) as [->|Hne].
    + rewrite decide_True by done. simpl.
      by rewrite lookup_app_r, Nat.sub_diag by lia.
    + by rewrite decide_False by congruence.
Qed.

Lemma dependenciesOf_resolved w f imp r d k :
  WF w → Map_get (dependenciesPerFile (graph w)) f = Some r →
  dependenciesOf (resolved w f imp (Some (r, d))) k
  = if decide (k = f) then (λ s, Set_add s d) <$> dependenciesOf w f
    else dependenciesOf w k.
Proof.
  intros Hw Hget. destruct (decide (k = f)) as [->|Hne].
  - unfold dependenciesOf. simpl. rewrite Hget. simpl.
    apply list_lookup_alter_eq.
  - apply (dependenciesOf_alter
             {| graph := graph w; sets := sets w; calls := _ |}).
    simpl. intros Hk. apply Hne. by eapply WF_ref_inj.
Qed.

(** X10.  Whichever way a build ends, rejected and starved builds
    included, every file in the set of a key is a file that the key
    imports: the graph never holds an edge that is not an import. *)
Theorem honest_edges resolver eps fuel o w' k ds d :
  createFromMultipleEntryPoints getImports fuel resolver eps boot = (o, w') →
  dependenciesOf w' k = Some ds → d ∈ ds →
  imports getImports resolver k d.
Proof.
  intros Hrun Hdep Hin.
  assert (Honest getImports resolver w') as HH; [|by eapply HH].
  clear k ds d Hdep Hin.
  apply (create_invariant resolver (Honest getImports resolver)
           eps fuel o w'); [| | | |done].
  - intros w f Hw Hf HJ k ds. rewrite dependenciesOf_enter by done.
    destruct (decide (k = f)) as [->|Hne]; [|apply HJ].
    intros [= <-] d Hd. by apply elem_of_nil in Hd.
  - intros w f imp specs r e Hw HJ _ _ _ _. exact HJ.
  - intros w f imp specs r d Hw HJ Hget Hspecs Himp Hres k ds.
    rewrite dependenciesOf_resolved by done.
    destruct (decide (k = f)) as [->|Hne]; [|apply HJ].
    destruct (dependenciesOf w f) as [s|] eqn:Hs; [|done].
    intros [= <-] d' [Hd'| ->]%Set_add_elem; [by eapply HJ|].
    by exists specs, imp.
  - intros k ds Hd. done.
Qed.

(** ** The graph only grows *)

Lemma snap_le_refl (s : @Snapshot File) : snap_le s s.
Proof. intros k ds Hk. by exists ds. Qed.

Lemma snap_le_trans (s1 s2 s3 : @Snapshot File) :
  snap_le s1 s2 → snap_le s2 s3 → snap_le s1 s3.
Proof.
  intros H12 H23 k ds Hk. destruct (H12 k ds Hk) as (ds2 & Hk2 & Hp).
  destruct (H23 k ds2 Hk2) as (ds3 & Hk3 & Hp'). exists ds3.
  split; [done|]. by etrans.
Qed.

Lemma snapshot_get w k :
  WF w → Map_get (snapshot w) k = dependenciesOf w k.
Proof.
  intros [_ _ Hb]. rewrite Map_get_snapshot. unfold dependenciesOf.
  destruct (Map_get (dependenciesPerFile (graph w)) k) as [r|] eqn:Hget;
    [|done]. simpl.
  apply Map_get_Some_elem in Hget. rewrite Forall_forall in Hb.
  destruct (lookup_lt_is_Some_2 (sets w) r (Hb _ Hget)) as [s Hs].
  unfold SetRef in *. by rewrite Hs.
Qed.

Lemma Steady_grow w w' :
  Steady w → calls w' = calls w → snap_le (snapshot w) (snapshot w') →
  Steady w'.
Proof.
  intros Hs Hc Hle l1 c s l2 Heq. rewrite Hc in Heq.
  destruct (Hs _ _ _ _ Heq) as [H1 H2]. split; [done|].
  by eapply snap_le_trans.
Qed.

Lemma Steady_snoc w c :
  Steady w →
  Steady {| graph := graph w; sets := sets w;
            calls := calls w ++ [(c, snapshot w)] |}.
Proof.
  intros Hs l1 c' s' l2 Heq. simpl in Heq.
  destruct l2 as [|x l2 _] using rev_ind.
  - apply app_inj_tail in Heq as [<- [= <- <-]]. split.
    + intros [c0 s0] Hin. apply list_elem_of_split in Hin as (la & lb & Hin).
      by destruct (Hs _ _ _ _ Hin) as [_ ?].
    + apply snap_le_refl.
  - rewrite app_comm_cons, app_assoc in Heq.
    apply app_inj_tail in Heq as [Heq _]. exact (Hs _ _ _ _ Heq).
Qed.

Lemma Set_add_prefix (s : list File) d : s `prefix_of` Set_add s d.
Proof.
  unfold Set_add. destruct (decide (d ∈ s)); [done|]. by apply prefix_app_r.
Qed.

(** X11.  The graph only grows during a build, whichever way the build
    ends: a key that a call saw, with the files in its set, is there at
    every later call and at the end, its set starting with the same files
    in the same order. *)
Theorem graph_only_grows resolver eps fuel o w' l1 c s l2 :
  createFromMultipleEntryPoints getImports fuel resolver eps boot = (o, w') →
  calls w' = l1 ++ (c, s) :: l2 →
  (∀ cs0, cs0 ∈ l1 → snap_le cs0.2 s) ∧ snap_le s (snapshot w').
Proof.
  intros Hrun. revert l1 c s l2. change (Steady w').
  apply (create_invariant resolver Steady eps fuel o w'); [| | | |done].
  - intros w f Hw Hf HJ.
    apply (Steady_snoc
             {| graph := graph (enter w f); sets := sets (enter w f);
                calls := calls w |} (CallGetImports f)).
    apply (Steady_grow w); [done|done|].
    intros k ds Hk. rewrite snapshot_get in Hk by done. exists ds.
    split; [|done].
    change (Map_get (snapshot (enter w f)) k = Some ds).
    rewrite snapshot_get by (by apply enter_WF).
    rewrite dependenciesOf_enter by done.
    rewrite decide_False; [done|]. intros ->.
    apply Map_get_None in Hf. unfold dependenciesOf in Hk.
    by rewrite Hf in Hk.
  - intros w f imp specs r e Hw HJ _ _ _ _. by apply Steady_snoc.
  - intros w f imp specs r d Hw HJ Hget Hspecs Himp Hres.
    apply (Steady_grow
             {| graph := graph w; sets := sets w;
                calls := calls w ++ [(CallResolveImport f imp, snapshot w)] |});
      [by apply Steady_snoc|done|].
    intros k ds Hk.
    change (Map_get (snapshot w) k = Some ds) in Hk.
    rewrite snapshot_get in Hk by done.
    assert (WF (resolved w f imp (Some (r, d)))) as Hw'.
    { apply (WF_alter {| graph := graph w; sets := sets w; calls := _ |}).
      by apply WF_calls. }
    rewrite snapshot_get, dependenciesOf_resolved by done.
    destruct (decide (k = f)) as [->|Hne]; [|by exists ds].
    rewrite Hk. simpl. eexists. split; [done|]. apply Set_add_prefix.
  - intros l1 c s l2 Heq. simpl in Heq. by destruct l1.
Qed.

(** ** More entry points, more sets *)

Lemma one_set_per_key resolver eps fuel o w' :
  createFromMultipleEntryPoints getImports fuel resolver eps boot = (o, w') →
  length (sets w') = length (getResolvedFiles w').
Proof.
  apply (create_invariant resolver
           (λ w, length (sets w) = length (getResolvedFiles w))).
  - intros w f _ _ HJ. rewrite (Ext_keys _ _ _ _ (enter_Ext w f)). simpl.
    rewrite !length_app. simpl. lia.
  - intros w f imp specs r e _ HJ _ _ _ _. exact HJ.
  - intros w f imp specs r d _ HJ _ _ _ _. simpl. rewrite length_alter.
    exact HJ.
  - done.
Qed.

(** X12.  The [Set] objects of a build are those of its keys, one each:
    whichever way a build ends, it has made as many sets as its graph has
    keys. *)
Theorem as_many_sets_as_keys resolver eps fuel o w' :
  createFromMultipleEntryPoints getImports fuel resolver eps boot = (o, w') →
  length (sets w') = length (getResolvedFiles w')
  ∧ ∀ r, r < length (sets w') →
      ∃ k, Map_get (dependenciesPerFile (graph w')) k = Some r.
Proof.
  intros Hrun. pose proof (one_set_per_key _ _ _ _ _ Hrun) as Hlen.
  split; [done|]. intros r Hr.
  destruct (create_spec _ _ _ _ _ Hrun) as ([Hk Hrefs Hb] & _).
  assert (r ∈ (dependenciesPerFile (graph w')).*2) as Hin.
  { apply dec_stable. intros Hnot.
    assert (NoDup (r :: (dependenciesPerFile (graph w')).*2)) as Hnd
      by (by constructor).
    assert (r :: (dependenciesPerFile (graph w')).*2
              ⊆ seq 0 (length (sets w'))) as Hsub.
    { intros x [->|Hx]%elem_of_cons; apply elem_of_seq; [lia|].
      apply list_elem_of_fmap in Hx as ([k v] & -> & Hx).
      rewrite Forall_forall in Hb. specialize (Hb _ Hx). simpl in *. lia. }
    pose proof (submseteq_length _ _ (NoDup_submseteq _ _ Hnd
                  (λ x Hx, Hsub x Hx))) as Hle.
    simpl in Hle. rewrite length_seq, length_fmap in Hle.
    unfold getResolvedFiles, Map_keys in Hlen. rewrite length_fmap in Hlen.
    lia. }
  apply list_elem_of_fmap in Hin as ([k v] & -> & Hin). exists k.
  by apply Map_get_elem.
Qed.

(** X13.  Giving a build more entry points only adds to its graph: of two
    fulfilled builds, the second with every entry point of the first, the
    second has every key of the first, with the same set. *)
Theorem more_entry_points resolver eps1 eps2 fuel1 fuel2 g1 w1 g2 w2 f :
  (∀ e, e ∈ eps1 → e ∈ eps2) →
  createFromMultipleEntryPoints getImports fuel1 resolver eps1 boot
  = (Fulfilled g1, w1) →
  createFromMultipleEntryPoints getImports fuel2 resolver eps2 boot
  = (Fulfilled g2, w2) →
  f ∈ Map_keys (dependenciesPerFile g1) →
  f ∈ Map_keys (dependenciesPerFile g2)
  ∧ dependenciesOf w2 f = dependenciesOf w1 f.
Proof.
  intros Heps Hrun1 Hrun2 Hf1.
  assert (f ∈ Map_keys (dependenciesPerFile g2)) as Hf2.
  { apply (keys_exact _ _ _ _ _ f Hrun2).
    apply (keys_exact _ _ _ _ _ f Hrun1) in Hf1 as (e & He & Hr).
    exists e. auto. }
  split; [done|].
  destruct (create_spec _ _ _ _ _ Hrun1) as (_ & _ & _ & _ & Hful1).
  destruct (create_spec _ _ _ _ _ Hrun2) as (_ & _ & _ & _ & Hful2).
  destruct (Hful1 g1 eq_refl) as (-> & _ & Hc1 & _).
  destruct (Hful2 g2 eq_refl) as (-> & _ & Hc2 & _).
  rewrite Forall_forall in Hc1, Hc2.
  destruct (Hc1 f Hf1) as (specs & ds & Hg & Hr & -> & _).
  destruct (Hc2 f Hf2) as (specs' & ds' & Hg' & Hr' & -> & _).
  assert (specs' = specs) as -> by congruence.
  by rewrite (resolves_functional _ _ _ _ _ Hr Hr').
Qed.

(** ** A build in a process that has run before *)

Section Rebase.
Context (pre : list (list File)) (prec : Log).

Local Abbreviation shift :=
  (λ fr : File * SetRef, (fr.1, length pre + fr.2)).

Lemma Map_keys_shift (m : list (File * SetRef)) :
  Map_keys (shift <$> m) = Map_keys m.
Proof. unfold Map_keys. by rewrite <- list_fmap_compose. Qed.

Lemma Map_set_shift (m : list (File * SetRef)) f r :
  Map_set (shift <$> m) f (length pre + r) = shift <$> Map_set m f r.
Proof.
  induction m as [|[k v] m IH]; simpl; [done|].
  destruct (decide (k = f)); simpl; [done|]. f_equal. apply IH.
Qed.

Lemma Map_get_shift (m : list (File * SetRef)) f :
  Map_get (shift <$> m) f = (λ r, length pre + r) <$> Map_get m f.
Proof.
  induction m as [|[k v] m IH]; simpl; [done|].
  destruct (decide (k = f)); done.
Qed.

Lemma lookup_rebase (store : list (list File)) r :
  (pre ++ store) !! (length pre + r) = store !! r.
Proof.
  rewrite lookup_app_r by lia. f_equal. lia.
Qed.

Lemma snap_shift (store : list (list File)) (m : list (File * SetRef)) :
  (λ fr : File * SetRef, (fr.1, default [] ((pre ++ store) !! fr.2)))
    <$> (shift <$> m)
  = (λ fr : File * SetRef, (fr.1, default [] (store !! fr.2))) <$> m.
Proof.
  rewrite <- list_fmap_compose.
  apply Forall_fmap_ext, Forall_forall. intros [k r] _. simpl.
  by rewrite lookup_rebase.
Qed.

Lemma snapshot_rebase w : snapshot (rebase pre prec w) = snapshot w.
Proof. apply snap_shift. Qed.

Lemma dependenciesOf_rebase w f :
  dependenciesOf (rebase pre prec w) f = dependenciesOf w f.
Proof.
  unfold dependenciesOf. simpl. rewrite Map_get_shift.
  destruct (Map_get (dependenciesPerFile (graph w)) f) as [r|]; [|done].
  simpl. apply lookup_rebase.
Qed.

Lemma begun_rebase w f :
  begun (rebase pre prec w) f = rebase pre prec (begun w f).
Proof.
  unfold begun, rebase, snapshot.
  cbn [graph sets calls dependenciesPerFile entryPoints].
  rewrite length_app, Map_set_shift, <- !app_assoc.
  by rewrite snap_shift.
Qed.

Lemma resolved_rebase w f imp :
  resolved (rebase pre prec w) f imp None
  = rebase pre prec (resolved w f imp None).
Proof.
  unfold resolved. rewrite snapshot_rebase. unfold rebase. simpl.
  by rewrite app_assoc.
Qed.

Lemma resolved_rebase_add w f imp r d :
  resolved (rebase pre prec w) f imp (Some (length pre + r, d))
  = rebase pre prec (resolved w f imp (Some (r, d))).
Proof.
  unfold resolved. rewrite snapshot_rebase. unfold rebase. simpl.
  rewrite app_assoc. f_equal.
  rewrite alter_app_r_alt by lia. do 2 f_equal. lia.
Qed.

Lemma body_begun resolver (visit : Visit) f w :
  addDependenciesFrom_body getImports visit resolver f w
  = match getImports f with
    | inl e => (Rejected e, begun w f)
    | inr specs =>
        for_of specs (addDependency visit resolver f (length (sets w)))
          (begun w f)
    end.
Proof.
  unfold addDependenciesFrom_body, bind, new_Set, dependenciesPerFile_set.
  simpl. unfold await at 1. simpl. by destruct (getImports f).
Qed.

Lemma for_of_rebase {A} (body body' : A → @M File Spec Err unit) xs w :
  (∀ x w, body' x (rebase pre prec w)
          = ((body x w).1, rebase pre prec (body x w).2)) →
  for_of xs body' (rebase pre prec w)
  = ((for_of xs body w).1, rebase pre prec (for_of xs body w).2).
Proof.
  intros Hb. revert w. induction xs as [|x xs IH]; intros w; simpl; [done|].
  unfold bind. rewrite Hb. destruct (body x w) as [[[]|e|] w1]; simpl; auto.
Qed.

Lemma addDependency_rebase resolver (visit visit' : Visit) f r imp w :
  (∀ d w, visit' d (rebase pre prec w)
          = ((visit d w).1, rebase pre prec (visit d w).2)) →
  addDependency visit' resolver f (length pre + r) imp (rebase pre prec w)
  = ((addDependency visit resolver f r imp w).1,
     rebase pre prec (addDependency visit resolver f r imp w).2).
Proof.
  intros Hv. unfold addDependency, bind, await.
  destruct (resolveImport resolver f imp) as [e|d]; simpl.
  { f_equal. apply resolved_rebase. }
  unfold dependenciesPerFile_has. simpl.
  change (Map_has (shift <$> dependenciesPerFile (graph w)) d)
    with (bool_decide
            (d ∈ Map_keys (shift <$> dependenciesPerFile (graph w)))).
  rewrite Map_keys_shift.
  change (bool_decide (d ∈ Map_keys (dependenciesPerFile (graph w))))
    with (Map_has (dependenciesPerFile (graph w)) d).
  pose proof (resolved_rebase_add w f imp r d) as Hw.
  unfold resolved in Hw.
  destruct (Map_has (dependenciesPerFile (graph w)) d).
  - simpl. unfold ret. f_equal. exact Hw.
  - etrans; [|apply Hv]. f_equal. exact Hw.
Qed.

Lemma addDependenciesFrom_rebase fuel resolver f w :
  addDependenciesFrom getImports fuel resolver f (rebase pre prec w)
  = ((addDependenciesFrom getImports fuel resolver f w).1,
     rebase pre prec (addDependenciesFrom getImports fuel resolver f w).2).
Proof.
  revert f w. induction fuel as [|fuel IH]; intros f w; [done|]. simpl.
  rewrite !body_begun, begun_rebase.
  destruct (getImports f) as [e|specs]; [done|].
  replace (length (sets (rebase pre prec w)))
    with (length pre + length (sets w)) by (simpl; by rewrite length_app).
  apply for_of_rebase. intros imp w1. by apply addDependency_rebase.
Qed.

Lemma visitEntryPoints_rebase fuel resolver eps w :
  visitEntryPoints getImports fuel resolver eps (rebase pre prec w)
  = ((visitEntryPoints getImports fuel resolver eps w).1,
     rebase pre prec (visitEntryPoints getImports fuel resolver eps w).2).
Proof.
  apply for_of_rebase. intros e w1.
  unfold bind, dependenciesPerFile_has. simpl.
  change (Map_has (shift <$> dependenciesPerFile (graph w1)) e)
    with (bool_decide
            (e ∈ Map_keys (shift <$> dependenciesPerFile (graph w1)))).
  rewrite Map_keys_shift.
  change (bool_decide (e ∈ Map_keys (dependenciesPerFile (graph w1))))
    with (Map_has (dependenciesPerFile (graph w1)) e).
  destruct (Map_has (dependenciesPerFile (graph w1)) e); [done|].
  apply addDependenciesFrom_rebase.
Qed.

End Rebase.

Lemma fresh_rebase w0 eps :
  fresh w0 eps = rebase (sets w0) (calls w0) (fresh (@boot File Spec) eps).
Proof. unfold fresh, rebase. simpl. by rewrite !app_nil_r. Qed.

(** A build in any world is the build from [boot] moved behind the sets
    and the calls of that world. *)
Lemma create_rebase fuel resolver eps w0 :
  createFromMultipleEntryPoints getImports fuel resolver eps w0
  = (let r := createFromMultipleEntryPoints getImports fuel resolver eps boot
     in (regraph r.1 (rebase (sets w0) (calls w0) r.2),
         rebase (sets w0) (calls w0) r.2)).
Proof.
  rewrite !create_unfold, fresh_rebase, visitEntryPoints_rebase.
  by destruct (visitEntryPoints getImports fuel resolver eps
                 (fresh boot eps)) as [[[]|e|] w1].
Qed.

End Traversal.

(** ** Two runs *)

Section TwoRuns.
Context {File Spec Err : Type} `{EqDecision File}.
Context (getImports1 getImports2 : File → Err + list Spec).
Context (resolver1 resolver2 : @Resolver File Spec Err).
Hypothesis same_imports : ∀ f, getImports1 f = getImports2 f.
Hypothesis same_resolution :
  ∀ f imp, resolveImport resolver1 f imp = resolveImport resolver2 f imp.

Lemma for_of_ext {A} (body body' : A → @M File Spec Err unit) xs w :
  (∀ x w, body x w = body' x w) → for_of xs body w = for_of xs body' w.
Proof.
  intros Hb. revert w. induction xs as [|x xs IH]; intros w; simpl; [done|].
  unfold bind. rewrite Hb. destruct (body' x w) as [[[]|e|] w1]; auto.
Qed.

Lemma body_ext (visit visit' : File → @M File Spec Err unit) f w :
  (∀ f w, visit f w = visit' f w) →
  addDependenciesFrom_body getImports1 visit resolver1 f w
  = addDependenciesFrom_body getImports2 visit' resolver2 f w.
Proof.
  intros Hv.
  unfold addDependenciesFrom_body, bind, new_Set, dependenciesPerFile_set.
  simpl. unfold await at 1 2. rewrite same_imports.
  destruct (getImports2 f) as [e|specs]; [done|].
  apply for_of_ext. intros imp w1. unfold addDependency, bind, await.
  rewrite same_resolution.
  destruct (resolveImport resolver2 f imp) as [e|d]; [done|]. simpl.
  destruct (Map_has _ d); [done|]. apply Hv.
Qed.

Lemma addDependenciesFrom_ext fuel f w :
  addDependenciesFrom getImports1 fuel resolver1 f w
  = addDependenciesFrom getImports2 fuel resolver2 f w.
Proof.
  revert f w. induction fuel as [|fuel IH]; intros f w; [done|].
  simpl. by apply body_ext.
Qed.

Lemma create_ext fuel eps w :
  createFromMultipleEntryPoints getImports1 fuel resolver1 eps w
  = createFromMultipleEntryPoints getImports2 fuel resolver2 eps w.
Proof.
  rewrite !create_unfold. unfold visitEntryPoints.
  erewrite for_of_ext; [done|]. intros e w1.
  unfold bind, dependenciesPerFile_has.
  destruct (Map_has _ e); [done|]. apply addDependenciesFrom_ext.
Qed.

(** C9 (two runs).  Two builds from the same entry points, with
    collaborators that answer every call alike, each in a process of its
    own history ([wa], [wb]: the [Set] objects made and the calls logged
    before, as when the second build follows the first) and with its own
    fuel, that both end: they end the same way, each fulfilled with its
    own graph; the graphs have the same keys in the same order and, behind
    references that may differ, the same set for each key; they made the
    same [Set] objects and the same calls, each call seeing the same
    graph.  When fulfilled, the keys are the files the entry points reach
    and the set of a key holds, once each, the files the key imports.
    In one and the same history the two builds are equal. *)
Theorem two_runs_agree eps fuel1 fuel2 wa wb o1 w1 o2 w2 :
  createFromMultipleEntryPoints getImports1 fuel1 resolver1 eps wa
  = (o1, w1) →
  createFromMultipleEntryPoints getImports2 fuel2 resolver2 eps wb
  = (o2, w2) →
  o1 ≠ Starved → o2 ≠ Starved →
  o1 = regraph o2 w1 ∧ o2 = regraph o1 w2
  ∧ getResolvedFiles w1 = getResolvedFiles w2
  ∧ (∀ f, dependenciesOf w1 f = dependenciesOf w2 f)
  ∧ snapshot w1 = snapshot w2
  ∧ (∃ newsets newcalls,
       sets w1 = sets wa ++ newsets ∧ sets w2 = sets wb ++ newsets ∧
       calls w1 = calls wa ++ newcalls ∧ calls w2 = calls wb ++ newcalls)
  ∧ (∀ g1, o1 = Fulfilled g1 →
       (∀ k, k ∈ Map_keys (dependenciesPerFile g1) ↔
             ∃ e, e ∈ eps ∧ reachable getImports1 resolver1 e k)
       ∧ ∀ k, k ∈ Map_keys (dependenciesPerFile g1) →
           ∃ ds, dependenciesOf w1 k = Some ds ∧
                 dependenciesOf w2 k = Some ds ∧ NoDup ds ∧
                 ∀ d, d ∈ ds ↔ imports getImports1 resolver1 k d)
  ∧ (wa = wb → o1 = o2 ∧ w1 = w2).
Proof.
  intros H1 H2 Ho1 Ho2.
  apply (create_le _ _ (fuel1 `max` fuel2)) in H1; [|lia|done].
  apply (create_le _ _ (fuel1 `max` fuel2)) in H2; [|lia|done].
  rewrite <- create_ext in H2.
  assert (wa = wb → o1 = o2 ∧ w1 = w2) as Hsame.
  { intros <-. rewrite H1 in H2. by injection H2. }
  rewrite create_rebase in H1. rewrite create_rebase in H2.
  destruct (createFromMultipleEntryPoints getImports1 (fuel1 `max` fuel2)
              resolver1 eps boot) as [o0 w0] eqn:Hrun.
  cbn [fst snd] in H1, H2.
  injection H1 as <- <-. injection H2 as <- <-.
  split_and!; try done.
  - by destruct o0.
  - by destruct o0.
  - unfold getResolvedFiles. cbn [rebase graph dependenciesPerFile].
    by rewrite !(Map_keys_shift getImports1 _ []).
  - intros f. by rewrite !(dependenciesOf_rebase getImports1).
  - by rewrite !(snapshot_rebase getImports1).
  - by exists (sets w0), (calls w0).
  - intros g1 Hg1. destruct o0 as [g0|e|]; [|done..]. injection Hg1 as <-.
    destruct (create_spec _ _ _ _ _ _ Hrun) as (_ & _ & _ & _ & Hful).
    destruct (Hful g0 eq_refl) as (-> & _ & Hc & _).
    cbn [rebase graph dependenciesPerFile]. split.
    + intros k. rewrite (Map_keys_shift getImports1 _ []). by eapply keys_exact.
    + intros k. rewrite (Map_keys_shift getImports1 _ []). intros Hk.
      rewrite Forall_forall in Hc.
      destruct (Complete_dependenciesOf _ _ _ _ (Hc k Hk))
        as (ds & Hd & Hnd & Hin).
      exists ds. by rewrite !(dependenciesOf_rebase getImports1).
Qed.

End TwoRuns.

(** ** The scenarios of the specification *)

Section Runs.
Import Scenarios.

(** Scenario 1: [A] imports [B], [B] imports nothing. *)
Example scenario_chain :
  (build chain 2 ["A"]).1
    = Fulfilled {| dependenciesPerFile := [("A", 0); ("B", 1)];
                   entryPoints := ["A"] |}
  ∧ snapshot (build chain 2 ["A"]).2 = [("A", ["B"]); ("B", [])].
Proof. by vm_compute. Qed.

(** Scenario 2: [A] imports [B] and [B] imports [A]. *)
Example scenario_cycle :
  (build cycle 2 ["A"]).1
    = Fulfilled {| dependenciesPerFile := [("A", 0); ("B", 1)];
                   entryPoints := ["A"] |}
  ∧ snapshot (build cycle 2 ["A"]).2 = [("A", ["B"]); ("B", ["A"])].
Proof. by vm_compute. Qed.

(** A file that imports itself. *)
Example scenario_loop :
  (build loop 1 ["A"]).1
    = Fulfilled {| dependenciesPerFile := [("A", 0)]; entryPoints := ["A"] |}
  ∧ snapshot (build loop 1 ["A"]).2 = [("A", ["A"])].
Proof. by vm_compute. Qed.

(** Scenario 3: entry points [A] and [B] both import [C]. *)
Example scenario_diamond :
  snapshot (build diamond 2 ["A"; "B"]).2
    = [("A", ["C"]); ("C", []); ("B", ["C"])]
  ∧ (calls (build diamond 2 ["A"; "B"]).2).*1
    = [CallGetImports "A"; CallResolveImport "A" "./C"; CallGetImports "C";
       CallGetImports "B"; CallResolveImport "B" "./C"].
Proof. by vm_compute. Qed.

(** Scenario 4: a specifier that cannot be resolved. *)
Example scenario_broken :
  (build broken 2 ["A"]).1 = Rejected "cannot resolve ./missing from A".
Proof. by vm_compute. Qed.

(** Too little fuel for the depth of the imports. *)
Example scenario_starved : (build cycle 1 ["A"]).1 = Starved.
Proof. by vm_compute. Qed.

Lemma cycle_imports_A_B : imports (getImports cycle) resolver "A" "B".
Proof. exists ["./B"], "./B". split_and!; [done|by left|done]. Qed.

Lemma cycle_imports_B_A : imports (getImports cycle) resolver "B" "A".
Proof. exists ["./A"], "./A". split_and!; [done|by left|done]. Qed.

Lemma cycle_Closed : Closed (getImports cycle) resolver ["A"; "B"].
Proof.
  intros f specs imp d Hf Hg Hi Hr.
  repeat (apply elem_of_cons in Hf as [->|Hf]);
    [| |by apply elem_of_nil in Hf]; vm_compute in Hg; simplify_eq;
    apply list_elem_of_singleton in Hi as ->; vm_compute in Hr; simplify_eq.
  - right. by left.
  - by left.
Qed.

Lemma cycle_Healthy : Healthy (getImports cycle) resolver ["A"; "B"].
Proof.
  intros f Hf.
  repeat (apply elem_of_cons in Hf as [->|Hf]);
    [| |by apply elem_of_nil in Hf].
  - exists ["./B"]. split; [done|].
    intros imp ->%list_elem_of_singleton. by exists "B".
  - exists ["./A"]. split; [done|].
    intros imp ->%list_elem_of_singleton. by exists "A".
Qed.

Lemma diamond_imports_A_C : imports (getImports diamond) resolver "A" "C".
Proof. exists ["./C"], "./C". split_and!; [done|by left|done]. Qed.

Lemma diamond_imports_B_C : imports (getImports diamond) resolver "B" "C".
Proof. exists ["./C"], "./C". split_and!; [done|by left|done]. Qed.

Lemma cycle_termination_witness :
  Closed (getImports cycle) resolver ["A"; "B"]
  ∧ Healthy (getImports cycle) resolver ["A"; "B"]
  ∧ on_cycle (getImports cycle) resolver "A"
  ∧ ∃ o w',
      build cycle 2 ["A"] = (o, w') ∧ o ≠ Starved
      ∧ (Healthy (getImports cycle) resolver ["A"; "B"] →
         ∃ g, o = Fulfilled g)
      ∧ (∀ g, o = Fulfilled g →
           g = graph w' ∧ "A" ∈ Map_keys (dependenciesPerFile g) ∧
           ∃ r ds,
             Map_get (dependenciesPerFile g) "A" = Some r ∧
             sets w' !! r = Some ds ∧ dependenciesOf w' "A" = Some ds ∧
             NoDup ds ∧
             (∀ d, d ∈ ds ↔ imports (getImports cycle) resolver "A" d) ∧
             (∀ d, d ∈ ds → d ∈ Map_keys (dependenciesPerFile g))).
Proof.
  assert (on_cycle (getImports cycle) resolver "A") as Hcyc.
  { exists "B". split; [apply cycle_imports_A_B|].
    eapply reachable_step; [apply reachable_refl|apply cycle_imports_B_A]. }
  split_and!; [apply cycle_Closed|apply cycle_Healthy|exact Hcyc|].
  apply (cycle_termination (getImports cycle) resolver ["A"; "B"] ["A"] 2 "A").
  - apply cycle_Closed.
  - by repeat constructor.
  - simpl. lia.
  - exact Hcyc.
  - exists "A". split; [by left|apply reachable_refl].
Defined.

Lemma visited_once_witness :
  let w' := (build diamond 2 ["A"; "B"]).2 in
  build diamond 2 ["A"; "B"] = (Fulfilled (graph w'), w')
  ∧ reachable (getImports diamond) resolver "B" "C"
  ∧ length (filter (λ k, k = "C")
              (Map_keys (dependenciesPerFile (graph w')))) = 1
  ∧ getImports_calls "C" (calls w') = 1
  ∧ ∃ specs, getImports diamond "C" = inr specs ∧
             resolved_from "C" (calls w') = specs ∧
             resolveImport_calls "C" (calls w') = length specs.
Proof.
  intros w'.
  assert (createFromMultipleEntryPoints (getImports diamond) 2 resolver
            ["A"; "B"] boot = (Fulfilled (graph w'), w')) as Hrun
    by (vm_compute; reflexivity).
  assert (reachable (getImports diamond) resolver "B" "C") as Hreach.
  { eapply reachable_step; [apply reachable_refl|apply diamond_imports_B_C]. }
  split; [vm_compute; reflexivity|]. split; [exact Hreach|].
  apply (visited_once (getImports diamond) resolver ["A"; "B"] 2
           (graph w') w' "B" "C" Hrun); [|exact Hreach].
  right. by left.
Defined.

Lemma resolver_calls_not_once :
  let w' := (build diamond 2 ["A"; "B"]).2 in
  build diamond 2 ["A"; "B"] = (Fulfilled (graph w'), w')
  ∧ imports (getImports diamond) resolver "A" "C"
  ∧ imports (getImports diamond) resolver "B" "C"
  ∧ getImports_calls "C" (calls w') = 1
  ∧ resolveImport_calls "C" (calls w') = 0
  ∧ resolveImport_answers resolver "C" (calls w') = 2
  ∧ ¬ (resolveImport_calls "C" (calls w') = 1
       ∨ resolveImport_answers resolver "C" (calls w') = 1).
Proof.
  intros w'.
  split; [by vm_compute|].
  split; [apply diamond_imports_A_C|].
  split; [apply diamond_imports_B_C|].
  split; [by vm_compute|].
  split; [by vm_compute|].
  split; [by vm_compute|].
  vm_compute. intros [?|?]; discriminate.
Qed.

Lemma completeness_witness :
  let w' := (build chain 2 ["A"]).2 in
  build chain 2 ["A"] = (Fulfilled (graph w'), w')
  ∧ (∀ e f, e ∈ ["A"] → reachable (getImports chain) resolver e f →
            f ∈ Map_keys (dependenciesPerFile (graph w')))
  ∧ (∀ f d, f ∈ Map_keys (dependenciesPerFile (graph w')) →
            imports (getImports chain) resolver f d →
            ∃ ds, dependenciesOf w' f = Some ds ∧ d ∈ ds).
Proof.
  intros w'.
  assert (build chain 2 ["A"] = (Fulfilled (graph w'), w')) as Hrun
    by (vm_compute; reflexivity).
  split; [exact Hrun|].
  exact (completeness (getImports chain) resolver ["A"] 2 (graph w') w' Hrun).
Defined.

Lemma fail_fast_witness :
  let o := (build broken 2 ["A"]).1 in
  let w' := (build broken 2 ["A"]).2 in
  build broken 2 ["A"] = (o, w')
  ∧ (∀ cs err, cs ∈ calls w' →
       failure (getImports broken) resolver cs.1 = Some err →
       o = Rejected err ∧ (∀ g, o ≠ Fulfilled g) ∧
       ∃ l, calls w' = l ++ [cs] ∧
            Forall (ok (getImports broken) resolver) l)
  ∧ (∀ err, o = Rejected err →
       ∃ l cs, calls w' = l ++ [cs] ∧
               Forall (ok (getImports broken) resolver) l ∧
               failure (getImports broken) resolver cs.1 = Some err).
Proof.
  intros o w'.
  assert (build broken 2 ["A"] = (o, w')) as Hrun by (vm_compute; reflexivity).
  split; [exact Hrun|].
  exact (fail_fast (getImports broken) resolver ["A"] 2 o w' Hrun).
Defined.



Lemma resolved_files_order_witness :
  let o := (build diamond 2 ["A"; "B"]).1 in
  let w' := (build diamond 2 ["A"; "B"]).2 in
  build diamond 2 ["A"; "B"] = (o, w')
  ∧ getResolvedFiles w' = extracted (calls w')
  ∧ NoDup (getResolvedFiles w')
  ∧ (∀ cs, cs ∈ calls w' → Map_keys cs.2 `prefix_of` getResolvedFiles w')
  ∧ (∀ g, o = Fulfilled g →
       Map_keys (dependenciesPerFile g) = getResolvedFiles w').
Proof.
  intros o w'.
  assert (createFromMultipleEntryPoints (getImports diamond) 2 resolver
            ["A"; "B"] boot = (o, w')) as Hrun
    by (vm_compute; reflexivity).
  split; [vm_compute; reflexivity|].
  exact (resolved_files_order (getImports diamond) resolver ["A"; "B"] 2
           o w' Hrun).
Defined.

Lemma dependencies_of_file_witness :
  let w' := (build chain 2 ["A"]).2 in
  build chain 2 ["A"] = (Fulfilled (graph w'), w')
  ∧ ("B" ∈ Map_keys (dependenciesPerFile (graph w')) →
       ∃ ds, dependenciesOf w' "B" = Some ds ∧
             (getImports chain "B" = inr [] → ds = []) ∧
             (ds = [] ↔ ∀ d, ¬ imports (getImports chain) resolver "B" d))
  ∧ ("B" ∉ Map_keys (dependenciesPerFile (graph w')) →
       dependenciesOf w' "B" = None).
Proof.
  intros w'.
  assert (build chain 2 ["A"] = (Fulfilled (graph w'), w')) as Hrun
    by (vm_compute; reflexivity).
  split; [exact Hrun|].
  exact (dependencies_of_file (getImports chain) resolver ["A"] 2 (graph w')
           w' "B" Hrun).
Defined.

Lemma two_runs_agree_witness :
  let r1 := build cycle 2 ["A"] in
  let r2 := createFromMultipleEntryPoints (getImports cycle) 5 resolver
              ["A"] r1.2 in
  r1.1 ≠ Starved ∧ r2.1 ≠ Starved
  ∧ sets r1.2 = [["B"]; ["A"]]
  ∧ (r1.1 = regraph r2.1 r1.2 ∧ r2.1 = regraph r1.1 r2.2
     ∧ getResolvedFiles r1.2 = getResolvedFiles r2.2
     ∧ (∀ f, dependenciesOf r1.2 f = dependenciesOf r2.2 f)
     ∧ snapshot r1.2 = snapshot r2.2
     ∧ (∃ newsets newcalls,
          sets r1.2 = sets (@boot string string) ++ newsets ∧
          sets r2.2 = sets r1.2 ++ newsets ∧
          calls r1.2 = calls (@boot string string) ++ newcalls ∧
          calls r2.2 = calls r1.2 ++ newcalls)
     ∧ (∀ g1, r1.1 = Fulfilled g1 →
          (∀ k, k ∈ Map_keys (dependenciesPerFile g1) ↔
                ∃ e, e ∈ ["A"] ∧ reachable (getImports cycle) resolver e k)
          ∧ ∀ k, k ∈ Map_keys (dependenciesPerFile g1) →
              ∃ ds, dependenciesOf r1.2 k = Some ds ∧
                    dependenciesOf r2.2 k = Some ds ∧ NoDup ds ∧
                    ∀ d, d ∈ ds ↔ imports (getImports cycle) resolver k d)
     ∧ (boot = r1.2 → r1.1 = r2.1 ∧ r1.2 = r2.2)).
Proof.
  intros r1 r2.
  assert (createFromMultipleEntryPoints (getImports cycle) 2 resolver ["A"]
            boot = (r1.1, r1.2)) as Hrun1 by (vm_compute; reflexivity).
  assert (createFromMultipleEntryPoints (getImports cycle) 5 resolver ["A"]
            r1.2 = (r2.1, r2.2)) as Hrun2 by (vm_compute; reflexivity).
  assert (r1.1 ≠ Starved) as H1 by (vm_compute; discriminate).
  assert (r2.1 ≠ Starved) as H2 by (vm_compute; discriminate).
  split; [exact H1|]. split; [exact H2|].
  split; [vm_compute; reflexivity|].
  exact (two_runs_agree (getImports cycle) (getImports cycle) resolver
           resolver (λ _, eq_refl) (λ _ _, eq_refl) ["A"] 2 5
           boot r1.2 r1.1 r1.2 r2.1 r2.2 Hrun1 Hrun2 H1 H2).
Defined.

(** ** Runs for the further properties *)

Lemma only_reachable_files_witness :
  let o := (build diamond 2 ["A"; "B"]).1 in
  let w' := (build diamond 2 ["A"; "B"]).2 in
  build diamond 2 ["A"; "B"] = (o, w')
  ∧ (∀ k, k ∈ getResolvedFiles w' →
          ∃ e, e ∈ ["A"; "B"] ∧ reachable (getImports diamond) resolver e k)
  ∧ (∀ g, o = Fulfilled g →
       ∀ k, k ∈ Map_keys (dependenciesPerFile g) ↔
            ∃ e, e ∈ ["A"; "B"] ∧
                 reachable (getImports diamond) resolver e k).
Proof.
  intros o w'.
  assert (createFromMultipleEntryPoints (getImports diamond) 2 resolver
            ["A"; "B"] boot = (o, w')) as Hrun
    by (vm_compute; reflexivity).
  split; [vm_compute; reflexivity|].
  exact (only_reachable_files (getImports diamond) resolver ["A"; "B"] 2
           o w' Hrun).
Defined.

Lemma dependency_sets_witness :
  let w' := (build chain 2 ["A"]).2 in
  build chain 2 ["A"] = (Fulfilled (graph w'), w')
  ∧ "A" ∈ Map_keys (dependenciesPerFile (graph w'))
  ∧ ∃ specs ds,
      getImports chain "A" = inr specs ∧ resolves resolver "A" specs ds ∧
      dependenciesOf w' "A" = Some (foldl Set_add [] ds) ∧
      NoDup (foldl Set_add [] ds) ∧
      (∀ d, d ∈ foldl Set_add [] ds ↔ d ∈ ds) ∧
      (∀ d, d ∈ ds → d ∈ Map_keys (dependenciesPerFile (graph w'))).
Proof.
  intros w'.
  assert (build chain 2 ["A"] = (Fulfilled (graph w'), w')) as Hrun
    by (vm_compute; reflexivity).
  assert ("A" ∈ Map_keys (dependenciesPerFile (graph w'))) as HA
    by (vm_compute; left).
  split; [exact Hrun|]. split; [exact HA|].
  exact (dependency_sets (getImports chain) resolver ["A"] 2 (graph w') w'
           "A" Hrun HA).
Defined.

Lemma entry_order_irrelevant_witness :
  let w1 := (build diamond 2 ["A"; "B"]).2 in
  let w2 := (build diamond 3 ["B"; "A"; "A"]).2 in
  (∀ e, e ∈ ["A"; "B"] ↔ e ∈ ["B"; "A"; "A"])
  ∧ build diamond 2 ["A"; "B"] = (Fulfilled (graph w1), w1)
  ∧ build diamond 3 ["B"; "A"; "A"] = (Fulfilled (graph w2), w2)
  ∧ (∀ k, k ∈ Map_keys (dependenciesPerFile (graph w1)) ↔
          k ∈ Map_keys (dependenciesPerFile (graph w2)))
  ∧ (∀ f, dependenciesOf w1 f = dependenciesOf w2 f).
Proof.
  intros w1 w2.
  assert (∀ e, e ∈ ["A"; "B"] ↔ e ∈ ["B"; "A"; "A"]) as Heps.
  { intros e. rewrite !elem_of_cons, !elem_of_nil. tauto. }
  assert (createFromMultipleEntryPoints (getImports diamond) 2 resolver
            ["A"; "B"] boot = (Fulfilled (graph w1), w1)) as H1
    by (vm_compute; reflexivity).
  assert (createFromMultipleEntryPoints (getImports diamond) 3 resolver
            ["B"; "A"; "A"] boot = (Fulfilled (graph w2), w2)) as H2
    by (vm_compute; reflexivity).
  split; [exact Heps|]. split; [vm_compute; reflexivity|].
  split; [vm_compute; reflexivity|].
  exact (entry_order_irrelevant (getImports diamond) resolver
           ["A"; "B"] ["B"; "A"; "A"] 2 3 (graph w1) w1 (graph w2) w2
           Heps H1 H2).
Defined.

Lemma sets_not_shared_witness :
  let o := (build cycle 2 ["A"]).1 in
  let w' := (build cycle 2 ["A"]).2 in
  build cycle 2 ["A"] = (o, w')
  ∧ (∀ k, k ∈ getResolvedFiles w' → is_Some (dependenciesOf w' k))
  ∧ (∀ k1 k2 r,
       Map_get (dependenciesPerFile (graph w')) k1 = Some r →
       Map_get (dependenciesPerFile (graph w')) k2 = Some r → k1 = k2).
Proof.
  intros o w'.
  assert (build cycle 2 ["A"] = (o, w')) as Hrun by (vm_compute; reflexivity).
  split; [exact Hrun|].
  exact (sets_not_shared (getImports cycle) resolver ["A"] 2 o w' Hrun).
Defined.

Lemma calls_are_warranted_witness :
  let o := (build broken 2 ["A"]).1 in
  let w' := (build broken 2 ["A"]).2 in
  let s := [("A", ["B"]); ("B", [])] in
  build broken 2 ["A"] = (o, w')
  ∧ (CallResolveImport "A" "./missing", s) ∈ calls w'
  ∧ (∃ e, e ∈ ["A"] ∧ reachable (getImports broken) resolver e "A")
  ∧ ∃ specs, getImports broken "A" = inr specs ∧ "./missing" ∈ specs.
Proof.
  intros o w' s.
  assert (build broken 2 ["A"] = (o, w')) as Hrun by (vm_compute; reflexivity).
  assert ((CallResolveImport "A" "./missing", s) ∈ calls w') as Hin.
  { vm_compute. do 3 apply list_elem_of_further. apply list_elem_of_here. }
  split; [exact Hrun|]. split; [exact Hin|].
  exact (calls_are_warranted (getImports broken) resolver ["A"] 2 o w'
           (CallResolveImport "A" "./missing") s Hrun Hin).
Defined.

Lemma getImports_once_per_key_witness :
  let o := (build diamond 2 ["A"; "B"]).1 in
  let w' := (build diamond 2 ["A"; "B"]).2 in
  build diamond 2 ["A"; "B"] = (o, w')
  ∧ getImports_calls "C" (calls w')
    = if decide ("C" ∈ getResolvedFiles w') then 1 else 0.
Proof.
  intros o w'.
  assert (createFromMultipleEntryPoints (getImports diamond) 2 resolver
            ["A"; "B"] boot = (o, w')) as Hrun
    by (vm_compute; reflexivity).
  split; [vm_compute; reflexivity|].
  exact (getImports_once_per_key (getImports diamond) resolver ["A"; "B"] 2
           o w' "C" Hrun).
Defined.

Lemma entry_points_kept_witness :
  let o := (build diamond 2 ["B"; "A"; "B"]).1 in
  let w' := (build diamond 2 ["B"; "A"; "B"]).2 in
  build diamond 2 ["B"; "A"; "B"] = (o, w')
  ∧ entryPoints (graph w') = ["B"; "A"; "B"]
  ∧ (∀ g, o = Fulfilled g → entryPoints g = ["B"; "A"; "B"]).
Proof.
  intros o w'.
  assert (createFromMultipleEntryPoints (getImports diamond) 2 resolver
            ["B"; "A"; "B"] boot = (o, w')) as Hrun
    by (vm_compute; reflexivity).
  split; [vm_compute; reflexivity|].
  exact (entry_points_kept (getImports diamond) resolver ["B"; "A"; "B"] 2
           o w' Hrun).
Defined.

Lemma repeated_entry_points_witness :
  let w1 := (build diamond 2 ["A"; "B"]).2 in
  build diamond 2 ["A"; "B"] = (Fulfilled (graph w1), w1)
  ∧ (∀ e, e ∈ ["C"; "A"] → e ∈ Map_keys (dependenciesPerFile (graph w1)))
  ∧ build diamond 2 (["A"; "B"] ++ ["C"; "A"])
    = (Fulfilled (graph (relabel (["A"; "B"] ++ ["C"; "A"]) w1)),
       relabel (["A"; "B"] ++ ["C"; "A"]) w1).
Proof.
  intros w1.
  assert (createFromMultipleEntryPoints (getImports diamond) 2 resolver
            ["A"; "B"] boot = (Fulfilled (graph w1), w1)) as Hrun
    by (vm_compute; reflexivity).
  assert (Map_keys (dependenciesPerFile (graph w1)) = ["A"; "C"; "B"]) as Hk
    by (vm_compute; reflexivity).
  assert (∀ e, e ∈ ["C"; "A"] →
               e ∈ Map_keys (dependenciesPerFile (graph w1))) as Hkeys.
  { intros e He. rewrite Hk. revert He.
    rewrite !elem_of_cons, !elem_of_nil. tauto. }
  split; [vm_compute; reflexivity|]. split; [exact Hkeys|].
  exact (repeated_entry_points (getImports diamond) resolver ["A"; "B"]
           ["C"; "A"] 2 (graph w1) w1 Hrun Hkeys).
Defined.

Lemma revisit_changes_nothing_witness :
  let w := (build cycle 2 ["A"]).2 in
  build cycle 2 ["A"] = (Fulfilled (graph w), w)
  ∧ "A" ∈ Map_keys (dependenciesPerFile (graph w))
  ∧ ∃ w' specs,
      addDependenciesFrom (getImports cycle) 1 resolver "A" w
      = (Fulfilled tt, w')
      ∧ getImports cycle "A" = inr specs
      ∧ snapshot w' = snapshot w
      ∧ getResolvedFiles w' = getResolvedFiles w
      ∧ (calls w').*1
        = (calls w).*1
          ++ CallGetImports "A" :: (CallResolveImport "A" <$> specs).
Proof.
  intros w.
  assert (build cycle 2 ["A"] = (Fulfilled (graph w), w)) as Hrun
    by (vm_compute; reflexivity).
  assert ("A" ∈ Map_keys (dependenciesPerFile (graph w))) as HA
    by (vm_compute; left).
  split; [exact Hrun|]. split; [exact HA|].
  exact (revisit_changes_nothing (getImports cycle) resolver ["A"] 2 0
           (graph w) w "A" Hrun HA).
Defined.

Lemma honest_edges_witness :
  let o := (build broken 2 ["A"]).1 in
  let w' := (build broken 2 ["A"]).2 in
  build broken 2 ["A"] = (o, w')
  ∧ dependenciesOf w' "A" = Some ["B"]
  ∧ "B" ∈ ["B"]
  ∧ imports (getImports broken) resolver "A" "B".
Proof.
  intros o w'.
  assert (build broken 2 ["A"] = (o, w')) as Hrun by (vm_compute; reflexivity).
  assert (dependenciesOf w' "A" = Some ["B"]) as Hdep
    by (vm_compute; reflexivity).
  assert ("B" ∈ ["B"]) as HB by left.
  split; [exact Hrun|]. split; [exact Hdep|]. split; [exact HB|].
  exact (honest_edges (getImports broken) resolver ["A"] 2 o w'
           "A" ["B"] "B" Hrun Hdep HB).
Defined.

Lemma graph_only_grows_witness :
  let o := (build cycle 2 ["A"]).1 in
  let w' := (build cycle 2 ["A"]).2 in
  let l1 := take 1 (calls w') in
  let s := [("A", [])] in
  let l2 := drop 2 (calls w') in
  build cycle 2 ["A"] = (o, w')
  ∧ calls w' = l1 ++ (CallResolveImport "A" "./B", s) :: l2
  ∧ (∀ cs0, cs0 ∈ l1 → snap_le cs0.2 s)
  ∧ snap_le s (snapshot w').
Proof.
  intros o w' l1 s l2.
  assert (build cycle 2 ["A"] = (o, w')) as Hrun by (vm_compute; reflexivity).
  assert (calls w' = l1 ++ (CallResolveImport "A" "./B", s) :: l2) as Hcalls
    by (vm_compute; reflexivity).
  split; [exact Hrun|]. split; [exact Hcalls|].
  exact (graph_only_grows (getImports cycle) resolver ["A"] 2 o w'
           l1 (CallResolveImport "A" "./B") s l2 Hrun Hcalls).
Defined.

Lemma as_many_sets_as_keys_witness :
  let o := (build broken 2 ["A"]).1 in
  let w' := (build broken 2 ["A"]).2 in
  build broken 2 ["A"] = (o, w')
  ∧ length (sets w') = length (getResolvedFiles w')
  ∧ ∀ r, r < length (sets w') →
      ∃ k, Map_get (dependenciesPerFile (graph w')) k = Some r.
Proof.
  intros o w'.
  assert (build broken 2 ["A"] = (o, w')) as Hrun by (vm_compute; reflexivity).
  split; [exact Hrun|].
  exact (as_many_sets_as_keys (getImports broken) resolver ["A"] 2 o w' Hrun).
Defined.

Lemma more_entry_points_witness :
  let w1 := (build chain 1 ["B"]).2 in
  let w2 := (build chain 2 ["A"; "B"]).2 in
  (∀ e, e ∈ ["B"] → e ∈ ["A"; "B"])
  ∧ build chain 1 ["B"] = (Fulfilled (graph w1), w1)
  ∧ build chain 2 ["A"; "B"] = (Fulfilled (graph w2), w2)
  ∧ "B" ∈ Map_keys (dependenciesPerFile (graph w1))
  ∧ "B" ∈ Map_keys (dependenciesPerFile (graph w2))
  ∧ dependenciesOf w2 "B" = dependenciesOf w1 "B".
Proof.
  intros w1 w2.
  assert (∀ e, e ∈ ["B"] → e ∈ ["A"; "B"]) as Heps.
  { intros e ->%list_elem_of_singleton. right. left. }
  assert (build chain 1 ["B"] = (Fulfilled (graph w1), w1)) as H1
    by (vm_compute; reflexivity).
  assert (build chain 2 ["A"; "B"] = (Fulfilled (graph w2), w2)) as H2
    by (vm_compute; reflexivity).
  assert ("B" ∈ Map_keys (dependenciesPerFile (graph w1))) as HB
    by (vm_compute; left).
  split; [exact Heps|]. split; [exact H1|]. split; [exact H2|].
  split; [exact HB|].
  exact (more_entry_points (getImports chain) resolver ["B"] ["A"; "B"] 1 2
           (graph w1) w1 (graph w2) w2 "B" Heps H1 H2 HB).
Defined.

End Runs.
